(** * The hierarchical allocation tree of the investment-portfolio planner

    A shallow embedding of [src/models/node.py] (class [Node]) and of
    [create_sankey_chart] from [src/ui/diagram.py], followed by the
    properties of the allocation tree.

    Conventions of the embedding:
    - a Python [str] is the list of its Unicode code points;
    - a Python [float] is a binary64 primitive float;
    - a Python [dict] is an association list in insertion order;
    - [Node] objects live in a store indexed by addresses, because nodes
      refer to each other in both directions ([children], [parent_node]);
    - an exception is an explicit outcome of the call that raises it. *)

From Stdlib Require Import ZArith NArith List Floats Uint63 Strings.String Strings.Ascii.
From stdpp Require Import base numbers list.

Set Warnings "-register-all".

(** ** Python strings *)

Module Str.

#[local] Open Scope N_scope.

Abbreviation str := (list N).

(** Code points of a UTF-8 encoded literal, so that the constants of the
    source can be written as they are in the source. *)
Fixpoint bytes_of (s : String.string) : list N :=
  match s with
  | EmptyString => []
  | String c s' => N_of_ascii c :: bytes_of s'
  end.

Fixpoint decode (bs : list N) : str :=
  match bs with
  | [] => []
  | b0 :: bs0 =>
      if b0 <? 128 then b0 :: decode bs0
      else match bs0 with
      | [] => [b0]
      | b1 :: bs1 =>
          if b0 <? 224 then ((b0 - 192) * 64 + (b1 - 128)) :: decode bs1
          else match bs1 with
          | [] => [b0; b1]
          | b2 :: bs2 =>
              if b0 <? 240
              then ((b0 - 224) * 4096 + (b1 - 128) * 64 + (b2 - 128)) :: decode bs2
              else match bs2 with
              | [] => [b0; b1; b2]
              | b3 :: bs3 =>
                  ((b0 - 240) * 262144 + (b1 - 128) * 4096
                   + (b2 - 128) * 64 + (b3 - 128)) :: decode bs3
              end
          end
      end
  end.

Definition lit (s : String.string) : str := decode (bytes_of s).

(** [str.isspace] on one code point: the white space table of CPython. *)
Definition isspace (c : N) : bool :=
  ((9 <=? c) && (c <=? 13)) || ((28 <=? c) && (c <=? 32))
  || (c =? 133) || (c =? 160) || (c =? 5760)
  || ((8192 <=? c) && (c <=? 8202))
  || (c =? 8232) || (c =? 8233) || (c =? 8239) || (c =? 8287) || (c =? 12288).

Fixpoint lstrip (s : str) : str :=
  match s with
  | [] => []
  | c :: s' => if isspace c then lstrip s' else s
  end.

Definition rstrip (s : str) : str := rev (lstrip (rev s)).

(** [s.strip()] *)
Definition strip (s : str) : str := rstrip (lstrip s).

(** Truth value of a string: [not s] holds of the empty string only. *)
Definition truthy (s : str) : bool :=
  match s with [] => false | _ :: _ => true end.

Definition eqb (a b : str) : bool := bool_decide (a = b).

(** [s.endswith(suffix)] *)
Definition endswith (s suffix : str) : bool :=
  bool_decide (drop (length s - length suffix)%nat s = suffix).

(** [x in names], for a list of strings *)
Definition mem (x : str) (names : list str) : bool := bool_decide (x ∈ names).

(** [sep.join(parts)] *)
Fixpoint join (sep : str) (parts : list str) : str :=
  match parts with
  | [] => []
  | p :: rest =>
      match rest with
      | [] => p
      | _ :: _ => p ++ sep ++ join sep rest
      end
  end.

End Str.

Import Str.

(** ** Python dictionaries, in insertion order *)

Abbreviation dict V := (list (str * V)).

Module Dict.

Section Ops.
Context {V : Type}.

(** [d.get(k)]; [None] is the absent key. *)
Fixpoint get (k : str) (d : dict V) : option V :=
  match d with
  | [] => None
  | (k', v) :: d' => if Str.eqb k' k then Some v else get k d'
  end.

(** [k in d] *)
Definition mem (k : str) (d : dict V) : bool :=
  match get k d with Some _ => true | None => false end.

(** [d[k] = v]: an existing key keeps its place, a new one goes last. *)
Fixpoint set (k : str) (v : V) (d : dict V) : dict V :=
  match d with
  | [] => [(k, v)]
  | (k', v') :: d' =>
      if Str.eqb k' k then (k, v) :: d' else (k', v') :: set k v d'
  end.

(** [del d[k]]; the source guards every deletion by [k in d]. *)
Definition del (k : str) (d : dict V) : dict V :=
  filter (fun kv => negb (Str.eqb (fst kv) k)) d.

Definition keys (d : dict V) : list str := map fst d.
Definition values (d : dict V) : list V := map snd d.

(** [bool(d)] *)
Definition truthy (d : dict V) : bool :=
  match d with [] => false | _ :: _ => true end.

End Ops.

End Dict.

(** ** Outcomes of calls that can raise *)

Inductive exn : Type :=
| KeyError (key : str).

Inductive outcome (A : Type) : Type :=
| Returns (a : A)
| Raises (e : exn).

Arguments Returns {A} a.
Arguments Raises {A} e.

(** ** Floats *)

(** The conversion Python applies to an [int] operand of a float
    operation.  The operands that occur are lengths of containers. *)
Definition float_of_int (z : Z) : float := PrimFloat.of_uint63 (Uint63.of_Z z).

(** [sum(xs)] of the interpreter on a sequence of floats.  CPython adds
    from left to right, starting at zero, up to version 3.11 and uses a
    compensated summation from 3.12 on; the model is independent of the
    choice. *)
Class Interpreter : Type := {
  builtin_sum : list float -> float
}.

(** ** The collaborators of [Node] *)

(** Modelled from the spec: the modules [enums], [hierarchy] and
    [providers] that node.py and diagram.py import are not in the source
    tree.  The spec describes the hierarchy policy as pure functions of the
    node kind and the asset catalog as an opaque name/kind oracle; they are
    taken as parameters, with the members of [NodeType] that node.py names.
    A set of kinds is the list of its members. *)
Class Collaborators : Type := {
  NodeType : Type;
  NodeType_eq_dec :: EqDecision NodeType;
  NodeType_CASH : NodeType;
  NodeType_ETF : NodeType;
  NodeType_STOCK : NodeType;
  NodeType_FUND : NodeType;
  NodeType_CRYPTO : NodeType;
  NodeType_OTHER : NodeType;
  (** [member.name] of an enum member *)
  NodeType_name : NodeType -> str;
  (** [NodeType.get_symbol_type(kind)] *)
  NodeType_get_symbol_type : NodeType -> option NodeType;
  (** [get_color(kind)] *)
  get_color : NodeType -> str;
  (** [hierarchy_manager.can_have_children(kind)] *)
  hierarchy_can_have_children : NodeType -> bool;
  (** [hierarchy_manager.get_valid_child_types(kind)] *)
  hierarchy_get_valid_child_types : NodeType -> list NodeType;
  (** [asset_registry.get_symbol_names(kind)] *)
  registry_get_symbol_names : NodeType -> list str;
  (** [asset_registry.get_available_names(kinds)] *)
  registry_get_available_names : list NodeType -> list str;
  (** [asset_registry.get_name_type(name, kinds)] *)
  registry_get_name_type : str -> list NodeType -> option NodeType
}.

(** ** The allocation ledger *)

(** Modelled from the spec: class [AllocationGroup] of the module
    [allocation], which is not in the source tree.  The spec gives it a
    mapping [allocations] from child name to percentage, a set [fixedItems]
    (here the list of its members in iteration order), [getAllocation] and
    [updateAllocation], and no validation. *)
Record AllocationGroup : Type := {
  allocations : dict float;
  fixed_items : list str
}.

(** [AllocationGroup()] *)
Definition AllocationGroup_init : AllocationGroup :=
  {| allocations := []; fixed_items := [] |}.

(** Modelled from the spec: the truth value of an [AllocationGroup], which
    node.py tests before using the group.  The spec reads the test as "the
    group is absent"; a group that exists counts as present. *)
Definition AllocationGroup_truthy (g : AllocationGroup) : bool := true.

(** Modelled from the spec: [getAllocation(name, default)]. *)
Definition get_allocation (g : AllocationGroup) (name : str) (default : float) : float :=
  match Dict.get name (allocations g) with
  | Some v => v
  | None => default
  end.

(** Modelled from the spec: [updateAllocation(name, value)]. *)
Definition update_allocation (g : AllocationGroup) (name : str) (value : float) : AllocationGroup :=
  {| allocations := Dict.set name value (allocations g);
     fixed_items := fixed_items g |}.

(** ** Nodes *)

Abbreviation addr := nat.

(** An entry of [node_stack]: (node, index of its parent, weight). *)
Abbreviation entry := (addr * Z * float)%type.

Definition ROOT_NAME : str := Str.lit "投資組合".

Section Model.
Context {C : Collaborators} {I : Interpreter}.

Record Node : Type := {
  name : str;
  node_type : NodeType;
  children : dict addr;
  allocation_group : AllocationGroup;
  parent_node : option addr
}.

(** [Node.__init__] *)
Definition Node_init (name : str) (node_type : NodeType) : Node :=
  {| name := name; node_type := node_type; children := [];
     allocation_group := AllocationGroup_init; parent_node := None |}.

Definition set_children (N : Node) (c : dict addr) : Node :=
  {| name := name N; node_type := node_type N; children := c;
     allocation_group := allocation_group N; parent_node := parent_node N |}.

Definition set_allocation_group (N : Node) (g : AllocationGroup) : Node :=
  {| name := name N; node_type := node_type N; children := children N;
     allocation_group := g; parent_node := parent_node N |}.

Definition set_parent_node (N : Node) (p : option addr) : Node :=
  {| name := name N; node_type := node_type N; children := children N;
     allocation_group := allocation_group N; parent_node := p |}.

(** [Node.is_root] *)
Definition is_root (self : Node) : bool := Str.eqb (name self) ROOT_NAME.

(** [Node.has_children] *)
Definition has_children (self : Node) : bool := Dict.truthy (children self).

(** [Node.can_have_children] *)
Definition can_have_children (self : Node) : bool :=
  hierarchy_can_have_children (node_type self).

(** [Node.get_valid_child_types] *)
Definition get_valid_child_types (self : Node) : list NodeType :=
  hierarchy_get_valid_child_types (node_type self).

(** [kind in kinds], for a set of kinds *)
Definition kind_mem (t : NodeType) (kinds : list NodeType) : bool :=
  bool_decide (t ∈ kinds).

(** [len(kinds) == 1 and next(iter(kinds)).name.endswith("_SYMBOL")] *)
Definition single_symbol_kind (kinds : list NodeType) : bool :=
  match remove_dups kinds with
  | [t] => Str.endswith (NodeType_name t) (Str.lit "_SYMBOL")
  | _ => false
  end.

(** [Node.get_available_child_names] *)
Definition get_available_child_names (self : Node) : list str :=
  if negb (can_have_children self) then []
  else if is_root self then
    [Str.lit "現金"; Str.lit "ETF"; Str.lit "股票"; Str.lit "基金";
     Str.lit "加密貨幣"; Str.lit "其他"]
  else
    let available_node_types := get_valid_child_types self in
    match available_node_types with
    | [] => []
    | _ :: _ =>
        let available_names :=
          if single_symbol_kind available_node_types
          then registry_get_symbol_names (node_type self)
          else registry_get_available_names available_node_types in
        available_names ++ [Str.lit "其他"]
    end.

(** The table [root_asset_types] of [determine_child_type]. *)
Definition root_asset_types : dict NodeType :=
  [(Str.lit "現金", NodeType_CASH); (Str.lit "ETF", NodeType_ETF);
   (Str.lit "股票", NodeType_STOCK); (Str.lit "基金", NodeType_FUND);
   (Str.lit "加密貨幣", NodeType_CRYPTO); (Str.lit "其他", NodeType_OTHER)].

(** [Node.determine_child_type].  A member of the enumeration is true as a
    condition, so [symbol_type and ...] fails for [None] only. *)
Definition determine_child_type (self : Node) (child_name : str) : option NodeType :=
  let valid_types := get_valid_child_types self in
  match valid_types with
  | [] => None
  | _ :: _ =>
      if is_root self then
        let node_type :=
          match Dict.get child_name root_asset_types with
          | Some t => t
          | None => NodeType_OTHER
          end in
        if kind_mem node_type valid_types then Some node_type else None
      else
        let fallback := registry_get_name_type child_name valid_types in
        match NodeType_get_symbol_type (node_type self) with
        | Some symbol_type =>
            if kind_mem symbol_type valid_types then
              if Str.eqb child_name (Str.lit "其他")
                 || negb (Str.mem child_name (registry_get_symbol_names (node_type self)))
              then Some symbol_type
              else fallback
            else fallback
        | None => fallback
        end
  end.

(** The generator [allocations[n] for n in fixed_items]: the values in
    iteration order, or the [KeyError] of the first absent key. *)
Fixpoint fixed_allocations (allocs : dict float) (items : list str) : outcome (list float) :=
  match items with
  | [] => Returns []
  | n :: rest =>
      match Dict.get n allocs with
      | None => Raises (KeyError n)
      | Some v =>
          match fixed_allocations allocs rest with
          | Returns vs => Returns (v :: vs)
          | Raises e => Raises e
          end
      end
  end.

(** [Node._initialize_child_allocation], on the node it mutates: the node
    as the call leaves it, and whether the call returned or raised. *)
Definition _initialize_child_allocation
    (self : Node) (name : str) (parent_weight : float) : Node * outcome unit :=
  let self :=
    if negb (AllocationGroup_truthy (allocation_group self))
    then set_allocation_group self AllocationGroup_init
    else self in
  let group := allocation_group self in
  if (length (children self) =? 1)%nat then
    (set_allocation_group self (update_allocation group name parent_weight), Returns tt)
  else
    match fixed_allocations (allocations group) (fixed_items group) with
    | Raises e => (self, Raises e)
    | Returns fixed =>
        let unfixed_total := (100 - builtin_sum fixed)%float in
        let unfixed_count :=
          (Z.of_nat (length (children self)) - Z.of_nat (length (fixed_items group)))%Z in
        if (0 <? unfixed_count)%Z then
          let share := (unfixed_total / float_of_int unfixed_count)%float in
          (set_allocation_group self (update_allocation group name share), Returns tt)
        else
          (set_allocation_group self (update_allocation group name 0%float), Returns tt)
    end.

(** ** The store of nodes *)

Abbreviation heap := (list Node).

Definition ERR_NAME : str := Str.lit "名稱不能為空或已存在".
Definition ERR_NO_CHILDREN : str := Str.lit "不能新增子節點".
Definition ERR_UNSUPPORTED : str := Str.lit "不支援此節點類型".

(** [Node.add_child].  The result is [None] only when [self] is not an
    object of the store, which no Python call can observe.  Otherwise it
    is the store after the call and the returned pair, or the exception
    that [_initialize_child_allocation] raised. *)
Definition add_child (h : heap) (self : addr) (name : str) (parent_weight : float)
    : option (heap * outcome (option addr * str)) :=
  match h !! self with
  | None => None
  | Some N =>
      let cleaned_name := Str.strip name in
      if negb (Str.truthy cleaned_name) || Dict.mem cleaned_name (children N) then
        Some (h, Returns (None, ERR_NAME))
      else if negb (can_have_children N) then
        Some (h, Returns (None, ERR_NO_CHILDREN))
      else
        match determine_child_type N cleaned_name with
        | None => Some (h, Returns (None, ERR_UNSUPPORTED))
        | Some node_type =>
            let new_node := length h in
            let h1 := h ++ [set_parent_node (Node_init cleaned_name node_type) (Some self)] in
            let N1 := set_children N (Dict.set cleaned_name new_node (children N)) in
            match _initialize_child_allocation N1 cleaned_name parent_weight with
            | (N2, Returns _) => Some (<[self := N2]> h1, Returns (Some new_node, []))
            | (N2, Raises e) => Some (<[self := N2]> h1, Raises e)
            end
        end
  end.

(** [Node.remove_child], on the node it mutates. *)
Definition remove_child_node (self : Node) (name : str) : Node * bool :=
  if negb (Dict.mem name (children self)) then (self, false)
  else
    let self := set_children self (Dict.del name (children self)) in
    let group := allocation_group self in
    let self :=
      if AllocationGroup_truthy group then
        let allocs :=
          if Dict.mem name (allocations group)
          then Dict.del name (allocations group)
          else allocations group in
        let fixed :=
          if Str.mem name (fixed_items group)
          then filter (fun n => n ≠ name) (fixed_items group)
          else fixed_items group in
        set_allocation_group self {| allocations := allocs; fixed_items := fixed |}
      else self in
    (self, true).

(** [Node.remove_child] on the store; [None] as for [add_child]. *)
Definition remove_child (h : heap) (self : addr) (name : str) : option (heap * bool) :=
  match h !! self with
  | None => None
  | Some N =>
      let '(N', r) := remove_child_node N name in
      Some (<[self := N']> h, r)
  end.

Definition SEPARATOR : str := Str.lit " -> ".

(** [Node.full_path].  The recursion follows [parent_node]; [fuel] bounds
    its depth and [None] says that it was not enough. *)
Fixpoint full_path (fuel : nat) (h : heap) (self : addr) : option str :=
  match fuel with
  | O => None
  | S fuel' =>
      match h !! self with
      | None => None
      | Some N =>
          match parent_node N with
          | None => Some (name N)
          | Some p =>
              match full_path fuel' h p with
              | None => None
              | Some parent_path => Some (parent_path ++ SEPARATOR ++ name N)
              end
          end
      end
  end.

(** ** The Sankey chart of diagram.py *)

Record SankeyChart : Type := {
  source_indices : list Z;
  target_indices : list Z;
  flow_values : list float;
  node_labels : list str;
  node_colors : list str
}.

(** [SankeyChart()] *)
Definition SankeyChart_init : SankeyChart :=
  {| source_indices := []; target_indices := []; flow_values := [];
     node_labels := []; node_colors := [] |}.

(** The [for child in reversed(...)] loop of [create_sankey_chart], over
    the children still to visit.  The head of a stack is the last element
    of the Python list. *)
Fixpoint push_children (h : heap) (current : Node) (current_idx : Z)
    (current_weight : float) (todo : list addr) (node_stack : list entry)
    : option (list entry) :=
  match todo with
  | [] => Some node_stack
  | child :: todo' =>
      match h !! child with
      | None => None
      | Some child_node =>
          let child_local_allocation :=
            get_allocation (allocation_group current) (name child_node) 0%float in
          let child_weight :=
            (current_weight * child_local_allocation / 100)%float in
          push_children h current current_idx current_weight todo'
            ((child, current_idx, child_weight) :: node_stack)
      end
  end.

(** The [while node_stack] loop.  [None]: the fuel ran out (or an address
    led outside the store). *)
Fixpoint sankey_loop (fuel : nat) (h : heap) (node_stack : list entry)
    (chart : SankeyChart) : option SankeyChart :=
  match node_stack with
  | [] => Some chart
  | (current, parent_idx, current_weight) :: node_stack' =>
      match fuel with
      | O => None
      | S fuel' =>
          match h !! current with
          | None => None
          | Some current_node =>
              let current_idx := Z.of_nat (length (node_labels chart)) in
              let linked := negb (parent_idx =? -1)%Z in
              let chart' :=
                {| source_indices :=
                     if linked then source_indices chart ++ [parent_idx]
                     else source_indices chart;
                   target_indices :=
                     if linked then target_indices chart ++ [current_idx]
                     else target_indices chart;
                   flow_values :=
                     if linked then flow_values chart ++ [current_weight]
                     else flow_values chart;
                   node_labels := node_labels chart ++ [name current_node];
                   node_colors :=
                     node_colors chart ++ [get_color (node_type current_node)] |} in
              match push_children h current_node current_idx current_weight
                      (rev (Dict.values (children current_node))) node_stack' with
              | None => None
              | Some stack' => sankey_loop fuel' h stack' chart'
              end
          end
      end
  end.

(** [create_sankey_chart(node)] *)
Definition create_sankey_chart (fuel : nat) (h : heap) (node : addr) : option SankeyChart :=
  sankey_loop fuel h [(node, (-1)%Z, 100%float)] SankeyChart_init.

End Model.

Abbreviation heap := (list Node).

(** ** Sequences of mutations *)

Section Operations.
Context {C : Collaborators} {I : Interpreter}.

Inductive operation : Type :=
| AddChild (self : addr) (name : str) (parent_weight : float)
| RemoveChild (self : addr) (name : str).

(** The store after one call, whatever the call returned or raised. *)
Definition apply_operation (h : heap) (o : operation) : heap :=
  match o with
  | AddChild self name parent_weight =>
      match add_child h self name parent_weight with
      | Some (h', _) => h'
      | None => h
      end
  | RemoveChild self name =>
      match remove_child h self name with
      | Some (h', _) => h'
      | None => h
      end
  end.

Definition run (h : heap) (ops : list operation) : heap :=
  foldl apply_operation h ops.

(** The store that holds one freshly constructed node, at address 0. *)
Definition fresh (name : str) (node_type : NodeType) : heap :=
  [Node_init name node_type].

(** ** Properties of nodes and stores *)

(** [fixedItems] is a subset of [keys(allocations)]. *)
Definition fixed_within_allocations (g : AllocationGroup) : Prop :=
  fixed_items g ⊆ Dict.keys (allocations g).

(** The value [_initialize_child_allocation] stores for the new child. *)
Definition initial_share (N : Node) (vals : list float) (parent_weight : float) : float :=
  if (length (children N) =? 1)%nat then parent_weight
  else
    let unfixed_count :=
      (Z.of_nat (length (children N))
       - Z.of_nat (length (fixed_items (allocation_group N))))%Z in
    if (0 <? unfixed_count)%Z
    then ((100 - builtin_sum vals) / float_of_int unfixed_count)%float
    else 0%float.

(** The three ways a call of [add_child] can end. *)
Inductive add_child_result (h : heap) (self : addr) (N : Node) (name : str)
    (w : float) : heap -> outcome (option addr * str) -> Prop :=
| add_rejected_name :
    Str.strip name = [] \/ Str.strip name ∈ Dict.keys (children N) ->
    add_child_result h self N name w h (Returns (None, ERR_NAME))
| add_rejected_leaf :
    Str.strip name <> [] ->
    Str.strip name ∉ Dict.keys (children N) ->
    can_have_children N = false ->
    add_child_result h self N name w h (Returns (None, ERR_NO_CHILDREN))
| add_rejected_kind :
    Str.strip name <> [] ->
    Str.strip name ∉ Dict.keys (children N) ->
    can_have_children N = true ->
    determine_child_type N (Str.strip name) = None ->
    add_child_result h self N name w h (Returns (None, ERR_UNSUPPORTED))
| add_done t N1 vals :
    Str.strip name <> [] ->
    Str.strip name ∉ Dict.keys (children N) ->
    can_have_children N = true ->
    determine_child_type N (Str.strip name) = Some t ->
    N1 = set_children N (Dict.set (Str.strip name) (length h) (children N)) ->
    ((length (children N1) =? 1)%nat = false ->
       fixed_allocations (allocations (allocation_group N))
         (fixed_items (allocation_group N)) = Returns vals) ->
    add_child_result h self N name w
      (<[self := set_allocation_group N1
                   (update_allocation (allocation_group N) (Str.strip name)
                      (initial_share N1 vals w))]>
         (h ++ [set_parent_node (Node_init (Str.strip name) t) (Some self)]))
      (Returns (Some (length h), []))
| add_raised t N1 e :
    Str.strip name <> [] ->
    Str.strip name ∉ Dict.keys (children N) ->
    can_have_children N = true ->
    determine_child_type N (Str.strip name) = Some t ->
    N1 = set_children N (Dict.set (Str.strip name) (length h) (children N)) ->
    ~ fixed_within_allocations (allocation_group N) ->
    add_child_result h self N name w
      (<[self := N1]>
         (h ++ [set_parent_node (Node_init (Str.strip name) t) (Some self)]))
      (Raises e).


(** The stored percentages sum to 100 within [tolerance]. *)
Definition sums_to_100 (tolerance : float) (g : AllocationGroup) : Prop :=
  PrimFloat.leb
    (PrimFloat.abs (builtin_sum (Dict.values (allocations g)) - 100)%float)
    tolerance = true.

(** What the calls do keep: the fixed items are keys of [allocations],
    and [allocations] has the keys of [children], in the same order. *)
Definition ledger_tracks_children (N : Node) : Prop :=
  fixed_within_allocations (allocation_group N)
  /\ Dict.keys (allocations (allocation_group N)) = Dict.keys (children N).

(** The invariant the spec gives an [AllocationGroup]. *)
Definition ledger_invariant (tolerance : float) (g : AllocationGroup) : Prop :=
  (allocations g ≠ [] -> sums_to_100 tolerance g) /\ fixed_within_allocations g.

(** Every entry (key, child) of the children of the node at [a] points to
    a node whose [parent_node] is [a] and whose [name] is the key. *)
Definition backrefs_at (h : heap) (a : addr) (N : Node) : Prop :=
  forall key child, (key, child) ∈ children N ->
    exists Cn, h !! child = Some Cn /\ parent_node Cn = Some a /\ name Cn = key.

Definition backrefs_consistent (h : heap) : Prop :=
  forall a N, h !! a = Some N -> backrefs_at h a N.

(** The node reached from [a] by a path of child names. *)
Fixpoint descend (h : heap) (a : addr) (path : list str) : option addr :=
  match path with
  | [] => Some a
  | key :: path' =>
      match h !! a with
      | None => None
      | Some N =>
          match Dict.get key (children N) with
          | None => None
          | Some child => descend h child path'
          end
      end
  end.

(** ** Trees in the store, and global weights *)

(** One step down: from a node and its weight to its [i]-th child and
    the weight multiplied by the child's local percentage over 100; a
    child absent from the allocations has local percentage 0. *)
Definition weight_step (h : heap) (s : addr * float) (i : nat) : option (addr * float) :=
  match h !! (fst s) with
  | None => None
  | Some N =>
      match Dict.values (children N) !! i with
      | None => None
      | Some child =>
          match h !! child with
          | None => None
          | Some Cn =>
              Some (child,
                    (snd s * get_allocation (allocation_group N) (name Cn) 0 / 100)%float)
          end
      end
  end.

(** The node at the end of a path of child positions from [root], with
    its global weight: 100 at [root], multiplied step by step. *)
Fixpoint walk (h : heap) (s : addr * float) (path : list nat) : option (addr * float) :=
  match path with
  | [] => Some s
  | i :: path' =>
      match weight_step h s i with
      | None => None
      | Some s' => walk h s' path'
      end
  end.

Definition global_weight (h : heap) (root : addr) (path : list nat) : option (addr * float) :=
  walk h (root, 100%float) path.

(** The shape of the object graph below a node, when it is a tree. *)
Inductive rtree : Type :=
| RNode (a : addr) (kids : list rtree).

Definition rroot (t : rtree) : addr :=
  match t with RNode a _ => a end.

Fixpoint size (t : rtree) : nat :=
  match t with RNode _ kids => S (list_sum (map size kids)) end.

Inductive shape (h : heap) : rtree -> Prop :=
| shape_node a N kids :
    h !! a = Some N ->
    map rroot kids = Dict.values (children N) ->
    Forall (shape h) kids ->
    shape h (RNode a kids).

(** The links of a chart, as triples (source, target, value). *)
Definition link_at (chart : SankeyChart) (j : nat) : option (Z * Z * float) :=
  match source_indices chart !! j, target_indices chart !! j, flow_values chart !! j with
  | Some s, Some t, Some v => Some (s, t, v)
  | _, _, _ => None
  end.

(** The entry that the loop of [create_sankey_chart] pushes for a child. *)
Definition child_entry (h : heap) (current : Node) (current_idx : Z)
    (current_weight : float) (child : addr) : entry :=
  match h !! child with
  | None => (child, current_idx, current_weight)
  | Some child_node =>
      (child, current_idx,
       (current_weight
        * get_allocation (allocation_group current) (name child_node) 0 / 100)%float)
  end.

(** [order] lists, for every index of the chart, the path of child
    positions from [root] to the node drawn there, whose name is the label
    at that index. *)
Definition labels_ok (h : heap) (root : addr) (chart : SankeyChart)
    (order : list (list nat)) : Prop :=
  length order = length (node_labels chart) /\
  forall i p, order !! i = Some p ->
    exists a w N, global_weight h root p = Some (a, w) /\ h !! a = Some N
                  /\ node_labels chart !! i = Some (name N).

(** Every link goes from the chart index of a node to the chart index of
    one of its children, and its value is the global weight of the child. *)
Definition links_ok (h : heap) (root : addr) (chart : SankeyChart)
    (order : list (list nat)) : Prop :=
  length (source_indices chart) = length (flow_values chart) /\
  length (target_indices chart) = length (flow_values chart) /\
  forall j s tg v, link_at chart j = Some (s, tg, v) ->
    exists p i child,
      (0 <= s)%Z /\ order !! Z.to_nat s = Some p /\
      (0 <= tg)%Z /\ order !! Z.to_nat tg = Some (p ++ [i]) /\
      global_weight h root (p ++ [i]) = Some (child, v).

(** A stack entry below the root: the node and weight at the end of a
    path, with the chart index of its parent. *)
Definition entry_ok (h : heap) (root : addr) (order : list (list nat)) (e : entry) : Prop :=
  let '(a, parent_idx, w) := e in
  exists p i,
    global_weight h root (p ++ [i]) = Some (a, w) /\
    (0 <= parent_idx)%Z /\ order !! Z.to_nat parent_idx = Some p.

Definition forest_size (forest : list rtree) : nat := list_sum (map size forest).

(** The links of the store follow the order of creation: a parent link
    goes to a lower address, and the children of a node are objects of the
    store at higher addresses. *)
Definition links_ordered (h : heap) : Prop :=
  forall a N, h !! a = Some N ->
    (forall p, parent_node N = Some p -> p < a)
    /\ (forall key c, (key, c) ∈ children N -> a < c < length h).

(** The chart refers to its own nodes only: a colour per label, and every
    link from a lower index to a higher one below the number of labels. *)
Definition indices_ok (chart : SankeyChart) : Prop :=
  length (node_colors chart) = length (node_labels chart)
  /\ Forall2 (fun s tg => (0 <= s < tg)%Z /\ (tg < Z.of_nat (length (node_labels chart)))%Z)
       (source_indices chart) (target_indices chart)
  /\ length (flow_values chart) = length (target_indices chart).

(** The trees below the entries of a stack. *)
Definition stack_shape (h : heap) (node_stack : list entry) (forest : list rtree) : Prop :=
  Forall2 (fun (e : entry) t => rroot t = fst (fst e) /\ shape h t) node_stack forest.

End Operations.

(** ** A sample policy and catalog *)

Module Sample.

Inductive kind : Type :=
| ROOT | CASH | ETF | STOCK | FUND | CRYPTO | OTHER
| ETF_SYMBOL | STOCK_SYMBOL | FUND_SYMBOL | CRYPTO_SYMBOL.

#[global] Instance kind_eq_dec : EqDecision kind.
Proof. solve_decision. Defined.

Definition kind_name (k : kind) : str :=
  match k with
  | ROOT => Str.lit "ROOT" | CASH => Str.lit "CASH" | ETF => Str.lit "ETF"
  | STOCK => Str.lit "STOCK" | FUND => Str.lit "FUND"
  | CRYPTO => Str.lit "CRYPTO" | OTHER => Str.lit "OTHER"
  | ETF_SYMBOL => Str.lit "ETF_SYMBOL" | STOCK_SYMBOL => Str.lit "STOCK_SYMBOL"
  | FUND_SYMBOL => Str.lit "FUND_SYMBOL" | CRYPTO_SYMBOL => Str.lit "CRYPTO_SYMBOL"
  end.

Definition symbol_type (k : kind) : option kind :=
  match k with
  | ETF => Some ETF_SYMBOL | STOCK => Some STOCK_SYMBOL
  | FUND => Some FUND_SYMBOL | CRYPTO => Some CRYPTO_SYMBOL
  | _ => None
  end.

Definition valid_child_types (k : kind) : list kind :=
  match k with
  | ROOT => [CASH; ETF; STOCK; FUND; CRYPTO; OTHER]
  | _ => match symbol_type k with Some s => [s] | None => [] end
  end.

Definition symbol_names (k : kind) : list str :=
  match k with
  | ETF => [Str.lit "VTI"; Str.lit "VXUS"; Str.lit "BND"]
  | STOCK => [Str.lit "AAPL"; Str.lit "TSMC"]
  | _ => []
  end.

Definition name_type (name : str) (kinds : list kind) : option kind :=
  if Str.mem name (symbol_names ETF) && bool_decide (ETF_SYMBOL ∈ kinds) then Some ETF_SYMBOL
  else if Str.mem name (symbol_names STOCK) && bool_decide (STOCK_SYMBOL ∈ kinds) then Some STOCK_SYMBOL
  else None.

(** Modelled from the spec: one hierarchy policy and asset catalog of the
    kind the spec describes, for the examples: the root holds the six asset
    classes; ETF, stock, fund and crypto classes hold their symbols; cash,
    "other" and the symbols are leaves. *)
#[global] Instance collaborators : Collaborators := {|
  NodeType := kind;
  NodeType_CASH := CASH;
  NodeType_ETF := ETF;
  NodeType_STOCK := STOCK;
  NodeType_FUND := FUND;
  NodeType_CRYPTO := CRYPTO;
  NodeType_OTHER := OTHER;
  NodeType_name := kind_name;
  NodeType_get_symbol_type := symbol_type;
  get_color := fun _ => Str.lit "#888888";
  hierarchy_can_have_children := fun k =>
    match valid_child_types k with [] => false | _ :: _ => true end;
  hierarchy_get_valid_child_types := valid_child_types;
  registry_get_symbol_names := symbol_names;
  registry_get_available_names := fun kinds => concat (map symbol_names kinds);
  registry_get_name_type := name_type
|}.

(** [sum] as CPython computes it up to version 3.11; later versions agree
    with it on the sequences of the examples, which have at most two
    members. *)
#[global] Instance interpreter : Interpreter := {|
  builtin_sum := fun xs => fold_left PrimFloat.add xs 0%float
|}.

Definition root : heap := fresh ROOT_NAME ROOT.

(** root -> ETF -> VTI, VXUS *)
Definition portfolio : heap :=
  run root [AddChild 0 (Str.lit "ETF") 100; AddChild 1 (Str.lit " VTI ") 100;
            AddChild 1 (Str.lit "VXUS") 100].

Definition root_node : Node :=
  {| name := ROOT_NAME; node_type := ROOT;
     children := [(Str.lit "ETF", 1)];
     allocation_group :=
       {| allocations := [(Str.lit "ETF", 100%float)]; fixed_items := [] |};
     parent_node := None |}.

Definition etf_node : Node :=
  {| name := Str.lit "ETF"; node_type := ETF;
     children := [(Str.lit "VTI", 2); (Str.lit "VXUS", 3)];
     allocation_group :=
       {| allocations := [(Str.lit "VTI", 100%float); (Str.lit "VXUS", 50%float)];
          fixed_items := [] |};
     parent_node := Some 0 |}.

Definition portfolio_tree : rtree := RNode 0 [RNode 1 [RNode 2 []; RNode 3 []]].

(** The ETF class after VTI was pinned at 70 and VXUS set to 30. *)
Definition pinned_etf : Node :=
  set_allocation_group etf_node
    {| allocations := [(Str.lit "VTI", 70%float); (Str.lit "VXUS", 30%float)];
       fixed_items := [Str.lit "VTI"] |}.

Definition pinned : heap := <[1 := pinned_etf]> portfolio.

(** root -> cash *)
Definition with_cash : heap := run root [AddChild 0 (Str.lit "現金") 100].

Definition cash_leaf : Node := set_parent_node (Node_init (Str.lit "現金") CASH) (Some 0).

(** A child of the root that bears the root's name. *)
Definition nested : heap := run root [AddChild 0 ROOT_NAME 100].

Definition namesake : Node := set_parent_node (Node_init ROOT_NAME OTHER) (Some 0).

(** The root after two asset classes were added with the default weight. *)
Definition two_classes : heap :=
  run root [AddChild 0 (Str.lit "ETF") 100; AddChild 0 (Str.lit "股票") 100].

Definition two_classes_group : AllocationGroup :=
  {| allocations := [(Str.lit "ETF", 100%float); (Str.lit "股票", 50%float)];
     fixed_items := [] |}.

End Sample.

(** * Properties *)

(** ** Dictionaries *)

Section DictFacts.
Context {V : Type}.
Implicit Types (d : dict V) (k : str) (v : V).

Lemma eqb_eq (a b : str) : Str.eqb a b = true <-> a = b.
Proof. unfold Str.eqb. apply bool_decide_eq_true. Qed.

Lemma eqb_neq (a b : str) : Str.eqb a b = false <-> a <> b.
Proof. unfold Str.eqb. apply bool_decide_eq_false. Qed.

Lemma get_None d k : Dict.get k d = None <-> k ∉ Dict.keys d.
Proof.
  induction d as [|[k' v'] d IH]; simpl.
  - split; [intros _; apply not_elem_of_nil | done].
  - destruct (Str.eqb k' k) eqn:E.
    + apply eqb_eq in E. subst. split; [done|]. intros H. destruct H. left.
    + apply eqb_neq in E. rewrite IH, not_elem_of_cons. naive_solver.
Qed.

Lemma mem_true d k : Dict.mem k d = true <-> k ∈ Dict.keys d.
Proof.
  unfold Dict.mem. destruct (Dict.get k d) eqn:E.
  - split; [intros _|done]. destruct (decide (k ∈ Dict.keys d)) as [|n]; [done|].
    apply get_None in n. congruence.
  - apply get_None in E. split; [done|]. intros; contradiction.
Qed.

Lemma mem_false d k : Dict.mem k d = false <-> k ∉ Dict.keys d.
Proof.
  rewrite <- mem_true. destruct (Dict.mem k d); split; intros; congruence.
Qed.

Lemma get_elem_of d k v : Dict.get k d = Some v -> (k, v) ∈ d.
Proof.
  induction d as [|[k' v'] d IH]; simpl; [done|].
  destruct (Str.eqb k' k) eqn:E.
  - apply eqb_eq in E. intros [= ->]. subst. left.
  - intros. right. auto.
Qed.

Lemma set_absent d k v : k ∉ Dict.keys d -> Dict.set k v d = d ++ [(k, v)].
Proof.
  induction d as [|[k' v'] d IH]; simpl; [done|].
  rewrite not_elem_of_cons. intros [Hne Hni].
  destruct (Str.eqb k' k) eqn:E.
  - apply eqb_eq in E. congruence.
  - by rewrite IH.
Qed.

Lemma get_set_eq d k v : Dict.get k (Dict.set k v d) = Some v.
Proof.
  induction d as [|[k' v'] d IH]; simpl.
  - assert (Str.eqb k k = true) as -> by by apply eqb_eq. done.
  - destruct (Str.eqb k' k) eqn:E; simpl.
    + assert (Str.eqb k k = true) as -> by by apply eqb_eq. done.
    + by rewrite E.
Qed.

Lemma get_set_ne d k k' v : k <> k' -> Dict.get k' (Dict.set k v d) = Dict.get k' d.
Proof.
  intros Hne. induction d as [|[k0 v0] d IH]; simpl.
  - assert (Str.eqb k k' = false) as -> by by apply eqb_neq. done.
  - destruct (Str.eqb k0 k) eqn:E; simpl.
    + apply eqb_eq in E. subst k0.
      assert (Str.eqb k k' = false) as -> by by apply eqb_neq. done.
    + destruct (Str.eqb k0 k'); [done | apply IH].
Qed.

Lemma keys_set d k v :
  Dict.keys (Dict.set k v d) =
  if Dict.mem k d then Dict.keys d else Dict.keys d ++ [k].
Proof.
  unfold Dict.mem. induction d as [|[k' v'] d IH]; simpl; [done|].
  destruct (Str.eqb k' k) eqn:E; simpl.
  - apply eqb_eq in E. by subst.
  - rewrite IH. by destruct (Dict.get k d).
Qed.

Lemma elem_of_set d k v kv : kv ∈ Dict.set k v d -> kv ∈ d \/ kv = (k, v).
Proof.
  induction d as [|[k' v'] d IH]; simpl.
  - rewrite list_elem_of_singleton. auto.
  - destruct (Str.eqb k' k); rewrite !elem_of_cons; naive_solver.
Qed.

Lemma elem_of_del d k kv : kv ∈ Dict.del k d <-> kv ∈ d /\ fst kv <> k.
Proof.
  unfold Dict.del. rewrite list_elem_of_filter.
  rewrite Is_true_true, negb_true_iff, eqb_neq. tauto.
Qed.

Lemma keys_del d k : Dict.keys (Dict.del k d) = filter (fun n => n <> k) (Dict.keys d).
Proof.
  unfold Dict.del, Dict.keys. induction d as [|[k' v'] d IH]; [done|].
  rewrite filter_cons. simpl. rewrite filter_cons.
  destruct (Str.eqb k' k) eqn:E; simpl.
  - apply eqb_eq in E. rewrite decide_False by (intros ?; congruence). apply IH.
  - apply eqb_neq in E. rewrite decide_True by done. simpl. by rewrite IH.
Qed.

Lemma get_del_eq d k : Dict.get k (Dict.del k d) = None.
Proof.
  apply get_None. rewrite keys_del, list_elem_of_filter. tauto.
Qed.

Lemma get_del_ne d k k' : k <> k' -> Dict.get k' (Dict.del k d) = Dict.get k' d.
Proof.
  intros Hne. unfold Dict.del. induction d as [|[k0 v0] d IH]; [done|].
  rewrite filter_cons. simpl.
  destruct (Str.eqb k0 k) eqn:E; simpl.
  - apply eqb_eq in E. subst k0.
    assert (Str.eqb k k' = false) as -> by by apply eqb_neq. apply IH.
  - destruct (Str.eqb k0 k'); [done | apply IH].
Qed.

Lemma NoDup_keys_set d k v : NoDup (Dict.keys d) -> NoDup (Dict.keys (Dict.set k v d)).
Proof.
  intros Hnd. rewrite keys_set. destruct (Dict.mem k d) eqn:E; [done|].
  apply mem_false in E. apply NoDup_app. split_and!; [done| |apply NoDup_singleton].
  intros x Hx. rewrite list_elem_of_singleton. intros ->. done.
Qed.

Lemma NoDup_keys_del d k : NoDup (Dict.keys d) -> NoDup (Dict.keys (Dict.del k d)).
Proof. rewrite keys_del. apply NoDup_filter. Qed.

End DictFacts.

(** ** What one call does to the node and to the store *)

Section CallFacts.
Context {C : Collaborators} {I : Interpreter}.
Implicit Types (h : heap) (N : Node) (g : AllocationGroup).

Lemma truthy_false (s : str) : Str.truthy s = false <-> s = [].
Proof. destruct s; simpl; split; congruence. Qed.

Lemma fixed_allocations_Forall2 (allocs : dict float) items vals :
  fixed_allocations allocs items = Returns vals <->
  Forall2 (fun f x => Dict.get f allocs = Some x) items vals.
Proof.
  revert vals. induction items as [|n items IH]; intros vals; simpl.
  - split; [intros [= <-]; constructor | by inversion 1].
  - destruct (Dict.get n allocs) as [v|] eqn:E.
    + destruct (fixed_allocations allocs items) as [vs|e] eqn:E'.
      * split.
        -- intros [= <-]. constructor; [done | by apply IH].
        -- inversion 1 as [|? x ? vs' Hx Hr]; subst.
           apply IH in Hr. congruence.
      * split; [done|]. inversion 1 as [|? x ? vs' Hx Hr]; subst.
        apply IH in Hr. congruence.
    + split; [done|]. inversion 1; congruence.
Qed.

Lemma fixed_allocations_total (allocs : dict float) items :
  items ⊆ Dict.keys allocs -> exists vals, fixed_allocations allocs items = Returns vals.
Proof.
  induction items as [|n items IH]; intros Hsub; simpl; [by eexists|].
  destruct (Dict.get n allocs) as [v|] eqn:E.
  - destruct IH as [vs ->]; [intros x Hx; apply Hsub; by right | by eexists].
  - apply get_None in E. destruct E. apply Hsub. left.
Qed.

Lemma initialize_returns N name w N2 :
  _initialize_child_allocation N name w = (N2, Returns tt) ->
  exists vals,
    ((length (children N) =? 1)%nat = false ->
       fixed_allocations (allocations (allocation_group N))
         (fixed_items (allocation_group N)) = Returns vals) /\
    N2 = set_allocation_group N
           (update_allocation (allocation_group N) name (initial_share N vals w)).
Proof.
  unfold _initialize_child_allocation, initial_share. simpl.
  destruct (length (children N) =? 1)%nat eqn:E1.
  - intros [= <-]. exists []. split; [done|]. done.
  - destruct (fixed_allocations _ _) as [vals|e]; [|done].
    exists vals. split; [done|].
    destruct (0 <? _)%Z; congruence.
Qed.

Lemma initialize_raises N name w N2 e :
  _initialize_child_allocation N name w = (N2, Raises e) ->
  N2 = N /\ ~ fixed_within_allocations (allocation_group N).
Proof.
  unfold _initialize_child_allocation. simpl.
  destruct (length (children N) =? 1)%nat; [done|].
  destruct (fixed_allocations _ _) as [vals|e'] eqn:E.
  - destruct (0 <? _)%Z; done.
  - intros [= <- <-]. split; [done|]. intros Hsub.
    apply fixed_allocations_total in Hsub as [vals Hv]. congruence.
Qed.

Lemma initialize_unit N name w N2 (u : unit) :
  _initialize_child_allocation N name w = (N2, Returns u) ->
  _initialize_child_allocation N name w = (N2, Returns tt).
Proof. by destruct u. Qed.

Lemma add_child_inv h self N name w :
  h !! self = Some N ->
  exists h' r, add_child h self name w = Some (h', r)
               /\ add_child_result h self N name w h' r.
Proof.
  intros Hself. unfold add_child. rewrite Hself.
  destruct (Str.truthy (Str.strip name)) eqn:Et; simpl.
  2:{ apply truthy_false in Et. eexists _, _. split; [done|].
      apply add_rejected_name. auto. }
  assert (Str.strip name <> []) as Hne by (intros Hs; rewrite Hs in Et; done).
  destruct (Dict.mem (Str.strip name) (children N)) eqn:Em; simpl.
  { apply mem_true in Em. eexists _, _. split; [done|].
    apply add_rejected_name. auto. }
  apply mem_false in Em.
  destruct (can_have_children N) eqn:Ec; simpl.
  2:{ eexists _, _. split; [done|]. by apply add_rejected_leaf. }
  destruct (determine_child_type N (Str.strip name)) as [t|] eqn:Ed.
  2:{ eexists _, _. split; [done|]. by apply add_rejected_kind. }
  destruct (_initialize_child_allocation _ _ _) as [N2 [u|e]] eqn:Ei.
  - apply initialize_unit, initialize_returns in Ei as (vals & Hvals & ->).
    eexists _, _. split; [done|]. simpl. by eapply add_done.
  - apply initialize_raises in Ei as [-> Hnot].
    eexists _, _. split; [done|]. by eapply add_raised.
Qed.

End CallFacts.

(** ** Claims about a single call *)

Section Calls.
Context {C : Collaborators} {I : Interpreter}.
Implicit Types (h : heap) (N : Node) (g : AllocationGroup).

Lemma lookup_self_after_add h self N (X new : Node) :
  h !! self = Some N -> <[self := X]> (h ++ [new]) !! self = Some X.
Proof.
  intros Hself. apply list_lookup_insert_eq.
  rewrite length_app. apply lookup_lt_Some in Hself. lia.
Qed.

Lemma lookup_new_after_add h self N (X new : Node) :
  h !! self = Some N -> <[self := X]> (h ++ [new]) !! length h = Some new.
Proof.
  intros Hself. apply lookup_lt_Some in Hself.
  rewrite list_lookup_insert_ne by lia.
  rewrite lookup_app_r by lia. by rewrite Nat.sub_diag.
Qed.

Lemma lookup_old_after_add h self (X new : Node) a :
  a <> self -> a < length h -> <[self := X]> (h ++ [new]) !! a = h !! a.
Proof.
  intros Hne Hlt. rewrite list_lookup_insert_ne by done. by apply lookup_app_l.
Qed.

Lemma children_after_add N (k : str) (a : addr) :
  k ∉ Dict.keys (children N) ->
  children (set_children N (Dict.set k a (children N))) = children N ++ [(k, a)].
Proof. intros Hk. simpl. by apply set_absent. Qed.

(** C6: [add_child] never leaves two children of a node under the same
    trimmed name: the keys of [children] stay pairwise distinct, and a
    successful call adds the one key [strip name], which is the new child's
    name.  A name that trims to the empty string or to the key of a child
    leaves the store, hence [children], unchanged and returns no node with
    the empty-or-duplicate-name message. *)
Theorem add_child_keeps_names_unique h self N nm w :
  h !! self = Some N ->
  exists h' r N',
    add_child h self nm w = Some (h', r) /\
    h' !! self = Some N' /\
    (NoDup (Dict.keys (children N)) -> NoDup (Dict.keys (children N'))) /\
    (forall c msg, r = Returns (Some c, msg) ->
       (Str.strip nm ∉ Dict.keys (children N)) /\
       Dict.keys (children N') = Dict.keys (children N) ++ [Str.strip nm] /\
       exists Cn, h' !! c = Some Cn /\ name Cn = Str.strip nm) /\
    (Str.strip nm = [] \/ Str.strip nm ∈ Dict.keys (children N) ->
       h' = h /\ r = Returns (None, ERR_NAME)).
Proof.
  intros Hself.
  destruct (add_child_inv h self N nm w Hself) as (h' & r & Hadd & Hres).
  exists h', r.
  destruct Hres as [Hbad|Hne Hni Hc|Hne Hni Hc Hd|t N1 vals Hne Hni Hc Hd -> Hv
                   |t N1 e Hne Hni Hc Hd -> Hnf].
  - exists N. split_and!; try done.
  - exists N. split_and!; try done. intros [|]; contradiction.
  - exists N. split_and!; try done. intros [|]; contradiction.
  - eexists. split_and!; [done | by eapply lookup_self_after_add | | | ].
    + simpl. apply NoDup_keys_set.
    + intros c msg [= <- <-]. split; [done|]. split.
      * simpl. rewrite keys_set.
        apply mem_false in Hni. by rewrite Hni.
      * eexists. split; [by eapply lookup_new_after_add | done].
    + intros [|]; contradiction.
  - eexists. split_and!; [done | by eapply lookup_self_after_add | | | ].
    + simpl. apply NoDup_keys_set.
    + intros c msg [=].
    + intros [|]; contradiction.
Qed.

(** C5, as the code has it: on a node that cannot have children, [add_child]
    fails for every name and leaves the store, hence [children], as it was.
    The message is "cannot add children" when the trimmed name is not empty
    and not the key of a child; otherwise the name check, which comes
    first, answers with the empty-or-duplicate-name message. *)
Theorem add_child_fails_on_leaf h self N nm w :
  h !! self = Some N ->
  can_have_children N = false ->
  exists msg,
    add_child h self nm w = Some (h, Returns (None, msg)) /\
    (Str.strip nm <> [] -> Str.strip nm ∉ Dict.keys (children N) ->
       msg = ERR_NO_CHILDREN) /\
    (Str.strip nm = [] \/ Str.strip nm ∈ Dict.keys (children N) ->
       msg = ERR_NAME).
Proof.
  intros Hself Hleaf.
  destruct (add_child_inv h self N nm w Hself) as (h' & r & Hadd & Hres).
  destruct Hres as [Hbad|Hne Hni Hc|Hne Hni Hc Hd|t N1 vals Hne Hni Hc Hd -> Hv
                   |t N1 e Hne Hni Hc Hd -> Hnf]; try congruence.
  - exists ERR_NAME. split_and!; [done | | done].
    intros ? ?. destruct Hbad; contradiction.
  - exists ERR_NO_CHILDREN. split_and!; [done | done | ].
    intros [|]; contradiction.
Qed.

(** C2: when [add_child] succeeds, the node has one child more, the entry
    of every other name in [allocations] and the fixed items are as before,
    and the entry of the new child is: [parent_weight] when it is the only
    child; otherwise, with [unfixed_total] = 100 minus the sum of the fixed
    items' entries and [unfixed_count] = children minus fixed items,
    [unfixed_total / unfixed_count] when the count is positive and 0 when
    it is 0. *)
Theorem add_child_allocation_rule h self N nm w h' c msg :
  h !! self = Some N ->
  add_child h self nm w = Some (h', Returns (Some c, msg)) ->
  exists N' vals,
    h' !! self = Some N' /\
    length (children N') = S (length (children N)) /\
    fixed_items (allocation_group N') = fixed_items (allocation_group N) /\
    (forall k, k <> Str.strip nm ->
       Dict.get k (allocations (allocation_group N'))
       = Dict.get k (allocations (allocation_group N))) /\
    (length (children N') = 1%nat ->
       Dict.get (Str.strip nm) (allocations (allocation_group N')) = Some w) /\
    (length (children N') <> 1%nat ->
       Forall2 (fun f x => Dict.get f (allocations (allocation_group N)) = Some x)
         (fixed_items (allocation_group N)) vals /\
       let unfixed_total := (100 - builtin_sum vals)%float in
       let unfixed_count :=
         (Z.of_nat (length (children N'))
          - Z.of_nat (length (fixed_items (allocation_group N))))%Z in
       ((0 < unfixed_count)%Z ->
          Dict.get (Str.strip nm) (allocations (allocation_group N'))
          = Some (unfixed_total / float_of_int unfixed_count)%float) /\
       (unfixed_count = 0%Z ->
          Dict.get (Str.strip nm) (allocations (allocation_group N'))
          = Some 0%float)).
Proof.
  intros Hself Hadd.
  destruct (add_child_inv h self N nm w Hself) as (h2 & r & Hadd' & Hres).
  rewrite Hadd in Hadd'. injection Hadd' as <- <-.
  inversion Hres as [| | |t N1 vals Hne Hni Hc Hd HN1 Hv Hh Hr|]; subst.
  set (N1 := set_children N (Dict.set (Str.strip nm) (length h) (children N))) in *.
  assert (length (children N1) = S (length (children N))) as Hlen.
  { unfold N1. rewrite children_after_add by done. rewrite length_app. simpl. lia. }
  set (v := initial_share N1 vals w).
  exists (set_allocation_group N1
            (update_allocation (allocation_group N) (Str.strip nm) v)), vals.
  split; [by eapply lookup_self_after_add|].
  change (children (set_allocation_group N1
            (update_allocation (allocation_group N) (Str.strip nm) v)))
    with (children N1).
  change (allocations (allocation_group (set_allocation_group N1
            (update_allocation (allocation_group N) (Str.strip nm) v))))
    with (Dict.set (Str.strip nm) v (allocations (allocation_group N))).
  split_and!; [done | done | | | ].
  - intros k Hk. by apply get_set_ne.
  - intros H1. rewrite get_set_eq. unfold v, initial_share.
    apply Nat.eqb_eq in H1. by rewrite H1.
  - intros H1. apply Nat.eqb_neq in H1.
    split; [by apply fixed_allocations_Forall2, Hv|].
    rewrite get_set_eq. unfold v, initial_share. rewrite H1.
    change (fixed_items (allocation_group N1)) with (fixed_items (allocation_group N)).
    split.
    + intros Hpos. apply Z.ltb_lt in Hpos. by rewrite Hpos.
    + intros H0. by rewrite H0.
Qed.

Lemma filter_without (l : list str) (k : str) :
  k ∉ l -> filter (fun n => n <> k) l = l.
Proof.
  induction l as [|x l IH]; [done|]. rewrite not_elem_of_cons. intros [Hne Hni].
  rewrite filter_cons_True by done. by rewrite IH.
Qed.

Lemma remove_child_node_absent N nm :
  nm ∉ Dict.keys (children N) -> remove_child_node N nm = (N, false).
Proof.
  intros Hni. unfold remove_child_node. apply mem_false in Hni. by rewrite Hni.
Qed.

Lemma remove_child_node_present N nm :
  nm ∈ Dict.keys (children N) ->
  exists N',
    remove_child_node N nm = (N', true) /\
    name N' = name N /\ node_type N' = node_type N /\
    parent_node N' = parent_node N /\
    children N' = Dict.del nm (children N) /\
    (forall k, Dict.get k (allocations (allocation_group N'))
               = if decide (k = nm) then None
                 else Dict.get k (allocations (allocation_group N))) /\
    Dict.keys (allocations (allocation_group N'))
      = filter (fun k => k <> nm) (Dict.keys (allocations (allocation_group N))) /\
    fixed_items (allocation_group N')
      = filter (fun k => k <> nm) (fixed_items (allocation_group N)).
Proof.
  intros Hin. unfold remove_child_node. apply mem_true in Hin. rewrite Hin.
  eexists. split; [done|]. simpl. split_and!; try done.
  - intros k. destruct (Dict.mem nm (allocations (allocation_group N))) eqn:Em.
    + case_decide as Hk; [subst; apply get_del_eq | by apply get_del_ne].
    + apply mem_false, get_None in Em. case_decide; by subst.
  - destruct (Dict.mem nm (allocations (allocation_group N))) eqn:Em.
    + apply keys_del.
    + apply mem_false in Em. by rewrite filter_without.
  - unfold Str.mem. case_bool_decide as Hf; [done|]. by rewrite filter_without.
Qed.

(** C7: removing an existing child takes its key out of [children], its
    entry out of [allocations] and its name out of the fixed items, changes
    nothing else in the node or in the store (the entries of the remaining
    siblings keep their percentages), and returns true; removing a name that
    is no child returns false and leaves the store as it was. *)
Theorem remove_child_bookkeeping h self N nm :
  h !! self = Some N ->
  (nm ∈ Dict.keys (children N) ->
     exists N',
       remove_child h self nm = Some (<[self := N']> h, true) /\
       Dict.get nm (children N') = None /\
       (forall k, k <> nm -> Dict.get k (children N') = Dict.get k (children N)) /\
       Dict.get nm (allocations (allocation_group N')) = None /\
       (forall k, k <> nm ->
          Dict.get k (allocations (allocation_group N'))
          = Dict.get k (allocations (allocation_group N))) /\
       (nm ∉ fixed_items (allocation_group N')) /\
       (forall k, k <> nm ->
          k ∈ fixed_items (allocation_group N') <-> k ∈ fixed_items (allocation_group N)))
  /\ (nm ∉ Dict.keys (children N) -> remove_child h self nm = Some (h, false)).
Proof.
  intros Hself. unfold remove_child. rewrite Hself. split.
  - intros Hin.
    destruct (remove_child_node_present N nm Hin)
      as (N' & -> & _ & _ & _ & Hch & Hal & _ & Hfx).
    exists N'. split_and!; [done | | | | | | ].
    + rewrite Hch. apply get_del_eq.
    + intros k Hk. rewrite Hch. by apply get_del_ne.
    + rewrite Hal. by rewrite decide_True.
    + intros k Hk. rewrite Hal. by rewrite decide_False.
    + rewrite Hfx, list_elem_of_filter. tauto.
    + intros k Hk. rewrite Hfx, list_elem_of_filter. tauto.
  - intros Hni. rewrite remove_child_node_absent by done.
    by rewrite list_insert_id.
Qed.

(** C3, as the code has it: [is_root] holds exactly of the nodes whose name
    is the reserved root name; the parent link is not consulted. *)
Theorem is_root_iff_root_name N : is_root N = true <-> name N = ROOT_NAME.
Proof. unfold is_root. apply eqb_eq. Qed.

(** C4, as the code has it: [get_available_child_names] is empty exactly
    when the node cannot have children or, not being the root, has no valid
    child kind; in every other case the result ends with "other". *)
Theorem available_child_names_fallback N :
  (get_available_child_names N = [] <->
     can_have_children N = false
     \/ (is_root N = false /\ get_valid_child_types N = []))
  /\ (get_available_child_names N <> [] ->
        last (get_available_child_names N) = Some (Str.lit "其他")).
Proof.
  unfold get_available_child_names.
  destruct (can_have_children N); simpl.
  2:{ split; [tauto | done]. }
  destruct (is_root N); simpl.
  { split; [|done]. split; [done|]. intros [|[]]; done. }
  destruct (get_valid_child_types N) as [|t ts]; simpl.
  { split; [|done]. split; auto. }
  split.
  - split.
    + intros Happ. by apply app_nil in Happ as [_ ?].
    + intros [|[_ ?]]; done.
  - intros _. apply last_snoc.
Qed.

End Calls.

(** ** Invariants of the store under sequences of calls *)

Section Invariants.
Context {C : Collaborators} {I : Interpreter}.
Implicit Types (h : heap) (N : Node) (g : AllocationGroup).

Lemma backrefs_update h self N N' :
  h !! self = Some N ->
  name N' = name N ->
  parent_node N' = parent_node N ->
  (forall key child, (key, child) ∈ children N' ->
     (key, child) ∈ children N
     \/ exists Cn, h !! child = Some Cn /\ parent_node Cn = Some self
                   /\ name Cn = key /\ child <> self) ->
  backrefs_consistent h ->
  backrefs_consistent (<[self := N']> h).
Proof.
  intros Hself Hname Hparent Hkids Hinv a Na Ha key child Hin.
  assert (exists Cn, h !! child = Some Cn /\ parent_node Cn = Some a /\ name Cn = key)
    as (Cn & Hc & Hp & Hn).
  { destruct (decide (a = self)) as [->|Hne].
    - rewrite list_lookup_insert_eq in Ha by (by eapply lookup_lt_Some).
      injection Ha as <-.
      destruct (Hkids key child Hin) as [Hold|(Cn & ? & ? & ? & _)]; [|eauto].
      by apply (Hinv self N Hself).
    - rewrite list_lookup_insert_ne in Ha by done. by apply (Hinv a Na Ha). }
  destruct (decide (child = self)) as [->|Hne].
  - exists N'. rewrite list_lookup_insert_eq by (by eapply lookup_lt_Some).
    rewrite Hself in Hc. injection Hc as <-. by rewrite Hname, Hparent.
  - exists Cn. by rewrite list_lookup_insert_ne.
Qed.

Lemma backrefs_alloc h (new : Node) :
  children new = [] -> backrefs_consistent h -> backrefs_consistent (h ++ [new]).
Proof.
  intros Hleaf Hinv a Na Ha key child Hin.
  destruct (decide (a < length h)) as [Hlt|Hge].
  - rewrite lookup_app_l in Ha by done.
    destruct (Hinv a Na Ha key child Hin) as (Cn & Hc & ?).
    exists Cn. split; [|done]. rewrite lookup_app_l; [done|]. by eapply lookup_lt_Some.
  - rewrite lookup_app_r in Ha by lia.
    destruct (a - length h) as [|n]; simpl in Ha; [|done].
    injection Ha as <-. rewrite Hleaf in Hin. by apply elem_of_nil in Hin.
Qed.

Lemma backrefs_add h self N (X : Node) (k : str) t :
  h !! self = Some N ->
  name X = name N ->
  parent_node X = parent_node N ->
  children X = Dict.set k (length h) (children N) ->
  backrefs_consistent h ->
  backrefs_consistent
    (<[self := X]> (h ++ [set_parent_node (Node_init k t) (Some self)])).
Proof.
  intros Hself Hname Hparent Hkids Hinv.
  apply lookup_lt_Some in Hself as Hlt.
  eapply backrefs_update; [by apply lookup_app_l_Some | done | done | | ].
  - intros key child Hin. rewrite Hkids in Hin.
    apply elem_of_set in Hin as [Hold | [= -> ->]]; [by left|].
    right. eexists.
    split; [rewrite lookup_app_r by lia; by rewrite Nat.sub_diag|].
    split_and!; [done | done | lia].
  - by apply backrefs_alloc.
Qed.

Lemma backrefs_add_child h self nm w h' r :
  add_child h self nm w = Some (h', r) ->
  backrefs_consistent h -> backrefs_consistent h'.
Proof.
  intros Hadd Hinv.
  destruct (h !! self) as [N|] eqn:Hself.
  2:{ unfold add_child in Hadd. by rewrite Hself in Hadd. }
  destruct (add_child_inv h self N nm w Hself) as (h2 & r2 & Hadd' & Hres).
  rewrite Hadd in Hadd'. injection Hadd' as <- <-.
  destruct Hres as [Hbad|Hne Hni Hc|Hne Hni Hc Hd|t N1 vals Hne Hni Hc Hd -> Hv
                   |t N1 e Hne Hni Hc Hd -> Hnf]; try done.
  - by eapply backrefs_add.
  - by eapply backrefs_add.
Qed.

Lemma backrefs_remove_child h self nm h' r :
  remove_child h self nm = Some (h', r) ->
  backrefs_consistent h -> backrefs_consistent h'.
Proof.
  unfold remove_child. intros Hrem Hinv.
  destruct (h !! self) as [N|] eqn:Hself; [|done].
  destruct (decide (nm ∈ Dict.keys (children N))) as [Hin|Hni].
  - destruct (remove_child_node_present N nm Hin)
      as (N' & HN' & Hname & _ & Hparent & Hch & _).
    rewrite HN' in Hrem. injection Hrem as <- <-.
    eapply backrefs_update; try done.
    intros key child Hk. left. rewrite Hch in Hk. by apply elem_of_del in Hk as [? _].
  - rewrite remove_child_node_absent in Hrem by done.
    injection Hrem as <- <-. by rewrite list_insert_id.
Qed.

Lemma backrefs_apply h o :
  backrefs_consistent h -> backrefs_consistent (apply_operation h o).
Proof.
  intros Hinv. destruct o as [self nm w|self nm]; simpl.
  - destruct (add_child h self nm w) as [[h' r]|] eqn:E; [|done].
    by eapply backrefs_add_child.
  - destruct (remove_child h self nm) as [[h' r]|] eqn:E; [|done].
    by eapply backrefs_remove_child.
Qed.

Lemma run_invariant (P : heap -> Prop) h ops :
  (forall h o, P h -> P (apply_operation h o)) -> P h -> P (run h ops).
Proof.
  intros Hstep. unfold run. revert h.
  induction ops as [|o ops IH]; intros h Hh; simpl; [done|]. apply IH. by apply Hstep.
Qed.

Lemma backrefs_run (root_name : str) (t : NodeType) (ops : list operation) :
  backrefs_consistent (run (fresh root_name t) ops).
Proof.
  apply run_invariant; [intros; by apply backrefs_apply|].
  intros a N Ha key child Hin.
  destruct a as [|a]; simpl in Ha; [|done].
  injection Ha as <-. by apply elem_of_nil in Hin.
Qed.

(** C10: after any sequence of [add_child] and [remove_child] calls, at
    any nodes, on a store that began as one freshly constructed node, every
    entry (key, child) of the children of every node of the store, reachable
    or not, has [child.parent_node] equal to that node and [child.name] equal
    to the key. *)
Theorem backrefs_after_operations (root_name : str) (t : NodeType) (ops : list operation) :
  backrefs_consistent (run (fresh root_name t) ops).
Proof. apply backrefs_run. Qed.

Lemma ledger_init (k : str) (t : NodeType) (p : option addr) :
  ledger_tracks_children (set_parent_node (Node_init k t) p).
Proof. split; [|done]. intros x Hx. by apply elem_of_nil in Hx. Qed.

Lemma ledger_add h self nm w h' r :
  add_child h self nm w = Some (h', r) ->
  Forall ledger_tracks_children h -> Forall ledger_tracks_children h'.
Proof.
  intros Hadd Hinv.
  destruct (h !! self) as [N|] eqn:Hself.
  2:{ unfold add_child in Hadd. by rewrite Hself in Hadd. }
  destruct (add_child_inv h self N nm w Hself) as (h2 & r2 & Hadd' & Hres).
  rewrite Hadd in Hadd'. injection Hadd' as <- <-.
  assert (ledger_tracks_children N) as [Hfix Hkeys].
  { rewrite Forall_lookup in Hinv. by eapply Hinv. }
  destruct Hres as [Hbad|Hne Hni Hc|Hne Hni Hc Hd|t N1 vals Hne Hni Hc Hd -> Hv
                   |t N1 e Hne Hni Hc Hd -> Hnf]; try done.
  apply Forall_insert.
  - apply Forall_app. split; [done|]. apply Forall_singleton, ledger_init.
  - assert (Dict.mem (Str.strip nm) (allocations (allocation_group N)) = false) as Hm.
    { apply mem_false. by rewrite Hkeys. }
    split.
    + unfold fixed_within_allocations. simpl. rewrite keys_set, Hm.
      intros x Hx. apply elem_of_app. left. by apply Hfix.
    + simpl. rewrite !keys_set, Hm. apply mem_false in Hni. by rewrite Hni, Hkeys.
Qed.

Lemma ledger_remove h self nm h' r :
  remove_child h self nm = Some (h', r) ->
  Forall ledger_tracks_children h -> Forall ledger_tracks_children h'.
Proof.
  unfold remove_child. intros Hrem Hinv.
  destruct (h !! self) as [N|] eqn:Hself; [|done].
  assert (ledger_tracks_children N) as [Hfix Hkeys].
  { rewrite Forall_lookup in Hinv. by eapply Hinv. }
  destruct (decide (nm ∈ Dict.keys (children N))) as [Hin|Hni].
  - destruct (remove_child_node_present N nm Hin)
      as (N' & HN' & _ & _ & _ & Hch & _ & Hal & Hfx).
    rewrite HN' in Hrem. injection Hrem as <- <-.
    apply Forall_insert; [done|]. split.
    + unfold fixed_within_allocations. rewrite Hal, Hfx. intros x.
      rewrite !list_elem_of_filter. intros [? ?]. split; [done|]. by apply Hfix.
    + by rewrite Hal, Hch, keys_del, Hkeys.
  - rewrite remove_child_node_absent in Hrem by done.
    injection Hrem as <- <-. by rewrite list_insert_id.
Qed.

(** C1, as the code has it: after any sequence of [add_child] and
    [remove_child] calls on a store that began as one freshly constructed
    node, every node has its fixed items among the keys of [allocations],
    and [allocations] has exactly the keys of [children].  Nothing holds the
    sum of the percentages at 100: a call sets or deletes one entry and
    leaves the others as they are. *)
Theorem ledger_after_operations (root_name : str) (t : NodeType) (ops : list operation) :
  Forall ledger_tracks_children (run (fresh root_name t) ops).
Proof.
  apply (run_invariant (Forall ledger_tracks_children)).
  - intros h [self nm w|self nm] Hinv; simpl.
    + destruct (add_child h self nm w) as [[h' r]|] eqn:E; [|done].
      by eapply ledger_add.
    + destruct (remove_child h self nm) as [[h' r]|] eqn:E; [|done].
      by eapply ledger_remove.
  - apply Forall_singleton. apply (ledger_init root_name t None).
Qed.

End Invariants.

(** ** Paths *)

Section Paths.
Context {C : Collaborators} {I : Interpreter}.
Implicit Types (h : heap) (N : Node).

Lemma join_snoc (sep : str) (parts : list str) (p x : str) :
  Str.join sep ((p :: parts) ++ [x]) = Str.join sep (p :: parts) ++ sep ++ x.
Proof.
  revert p. induction parts as [|q parts IH]; intros p; [done|].
  change (Str.join sep ((p :: q :: parts) ++ [x]))
    with (p ++ sep ++ Str.join sep ((q :: parts) ++ [x])).
  rewrite IH.
  change (Str.join sep (p :: q :: parts)) with (p ++ sep ++ Str.join sep (q :: parts)).
  by rewrite <- !app_assoc.
Qed.

Lemma descend_snoc h root path key c :
  descend h root (path ++ [key]) = Some c ->
  exists a N, descend h root path = Some a /\ h !! a = Some N
              /\ Dict.get key (children N) = Some c.
Proof.
  revert root. induction path as [|k path IH]; intros root; simpl.
  - destruct (h !! root) as [N|] eqn:E; [|done].
    destruct (Dict.get key (children N)) as [c'|] eqn:E'; [|done].
    intros [= <-]. eauto.
  - destruct (h !! root) as [N|]; [|done].
    destruct (Dict.get k (children N)) as [c'|]; [|done]. apply IH.
Qed.

Lemma full_path_root fuel h a N :
  h !! a = Some N -> parent_node N = None -> full_path (S fuel) h a = Some (name N).
Proof. intros Ha Hp. cbn [full_path]. by rewrite Ha, Hp. Qed.

Lemma full_path_child fuel h a N p :
  h !! a = Some N -> parent_node N = Some p ->
  full_path (S fuel) h a =
  match full_path fuel h p with
  | None => None
  | Some parent_path => Some (parent_path ++ SEPARATOR ++ name N)
  end.
Proof. intros Ha Hp. cbn [full_path]. by rewrite Ha, Hp. Qed.

(** C8: in a store with consistent back-references, the node reached from
    a parentless root by a path of child names has as [full_path] the name
    of the root and the names on the path, in this order, joined by the
    separator; the recursion along the parent links ends after one call per
    node on the path.  [full_path] is a function of the store and returns
    only the string, so it has no effect.  For the chain root, A, B the path
    of B is the root's name, the separator, "A", the separator and "B". *)
Theorem full_path_joins_names h root R path a fuel :
  backrefs_consistent h ->
  h !! root = Some R ->
  parent_node R = None ->
  descend h root path = Some a ->
  length path < fuel ->
  full_path fuel h a = Some (Str.join SEPARATOR (name R :: path)).
Proof.
  intros Hinv Hroot Hparent. revert a fuel.
  induction path as [|key path IH] using rev_ind; intros a fuel Hd Hfuel.
  - injection Hd as <-. destruct fuel as [|fuel]; [simpl in Hfuel; lia|].
    by apply full_path_root.
  - apply descend_snoc in Hd as (p & P & Hp & HP & Hget).
    apply get_elem_of in Hget.
    destruct (Hinv p P HP key a Hget) as (Cn & Ha & Hpar & Hname).
    rewrite length_app in Hfuel. simpl in Hfuel.
    destruct fuel as [|fuel]; [lia|].
    rewrite (full_path_child fuel h a Cn p Ha Hpar).
    rewrite (IH p fuel Hp) by lia. rewrite Hname.
    change (name R :: path ++ [key]) with ((name R :: path) ++ [key]).
    by rewrite join_snoc.
Qed.

End Paths.

(** ** The Sankey chart *)

Section Sankey.
Context {C : Collaborators} {I : Interpreter}.
Implicit Types (h : heap) (N : Node) (chart : SankeyChart) (order : list (list nat)).

Lemma walk_app h s p q :
  walk h s (p ++ q) =
  match walk h s p with
  | None => None
  | Some s' => walk h s' q
  end.
Proof.
  revert s. induction p as [|i p IH]; intros s; simpl; [done|].
  destruct (weight_step h s i); [apply IH | done].
Qed.

Lemma walk_snoc h root p a w N k child Cn :
  global_weight h root p = Some (a, w) ->
  h !! a = Some N ->
  Dict.values (children N) !! k = Some child ->
  h !! child = Some Cn ->
  global_weight h root (p ++ [k])
  = Some (child, (w * get_allocation (allocation_group N) (name Cn) 0 / 100)%float).
Proof.
  unfold global_weight. intros Hp Ha Hk Hc. rewrite walk_app, Hp.
  cbn [walk]. unfold weight_step. cbn [fst snd]. by rewrite Ha, Hk, Hc.
Qed.

Lemma push_children_spec h N idx w todo st :
  Forall (fun c => is_Some (h !! c)) todo ->
  push_children h N idx w todo st
  = Some (rev (map (child_entry h N idx w) todo) ++ st).
Proof.
  revert st. induction todo as [|c todo IH]; intros st Hall; [done|].
  apply Forall_cons in Hall as [[Cn Hc] Hall].
  cbn [push_children map rev]. rewrite Hc, IH by done.
  rewrite <- app_assoc.
  assert (child_entry h N idx w c
          = (c, idx, (w * get_allocation (allocation_group N) (name Cn) 0 / 100)%float))
    as -> by (unfold child_entry; by rewrite Hc).
  done.
Qed.

Lemma shape_inv h a kids :
  shape h (RNode a kids) ->
  exists N, h !! a = Some N /\ map rroot kids = Dict.values (children N)
            /\ Forall (shape h) kids.
Proof. inversion 1; subst. eauto. Qed.

Lemma shape_root_lookup h t : shape h t -> is_Some (h !! rroot t).
Proof. destruct t as [a kids]. intros (N & HN & _)%shape_inv. by exists N. Qed.

Lemma child_entry_addr h N idx w c : fst (fst (child_entry h N idx w c)) = c.
Proof. unfold child_entry. by destruct (h !! c). Qed.

Lemma link_at_push chart chart1 j (x y : Z * Z * float) :
  length (source_indices chart) = length (flow_values chart) ->
  length (target_indices chart) = length (flow_values chart) ->
  source_indices chart1 = source_indices chart ++ [fst (fst y)] ->
  target_indices chart1 = target_indices chart ++ [snd (fst y)] ->
  flow_values chart1 = flow_values chart ++ [snd y] ->
  link_at chart1 j = Some x ->
  link_at chart j = Some x \/ x = y.
Proof.
  intros Hs Ht Hs1 Ht1 Hf1. unfold link_at. rewrite Hs1, Ht1, Hf1.
  destruct (decide (j < length (flow_values chart))) as [Hlt|Hge].
  - rewrite !lookup_app_l by lia. auto.
  - rewrite !lookup_app_r by lia. rewrite Hs, Ht.
    destruct (j - length (flow_values chart)) as [|n]; simpl; [|done].
    destruct y as [[s tg] v]. intros [= <-]. auto.
Qed.

Lemma labels_ok_push h root chart chart1 order p a w N :
  labels_ok h root chart order ->
  global_weight h root p = Some (a, w) ->
  h !! a = Some N ->
  node_labels chart1 = node_labels chart ++ [name N] ->
  labels_ok h root chart1 (order ++ [p]).
Proof.
  intros [Hlen Hall] Hp Ha Hl1. split.
  - rewrite Hl1, !length_app, Hlen. done.
  - intros i q Hq. rewrite Hl1.
    destruct (decide (i < length order)) as [Hlt|Hge].
    + rewrite lookup_app_l in Hq by done.
      destruct (Hall i q Hq) as (a' & w' & N' & ? & ? & Hlab).
      exists a', w', N'. split_and!; [done | done |].
      rewrite lookup_app_l; [done | by eapply lookup_lt_Some].
    + rewrite lookup_app_r in Hq by lia.
      destruct (i - length order) as [|n] eqn:E; simpl in Hq; [|done].
      injection Hq as <-. exists a, w, N. split_and!; [done | done |].
      rewrite lookup_app_r by lia. replace (i - length (node_labels chart)) with 0 by lia.
      done.
Qed.

Lemma entry_ok_mono h root order q (e : entry) :
  entry_ok h root order e -> entry_ok h root (order ++ [q]) e.
Proof.
  destruct e as [[a pidx] w]. intros (p & i & Hw & Hpos & Hord).
  exists p, i. split_and!; [done | done | by apply lookup_app_l_Some].
Qed.

Lemma links_ok_push h root chart chart1 order p i a pidx w :
  links_ok h root chart order ->
  global_weight h root (p ++ [i]) = Some (a, w) ->
  (0 <= pidx)%Z ->
  order !! Z.to_nat pidx = Some p ->
  source_indices chart1 = source_indices chart ++ [pidx] ->
  target_indices chart1 = target_indices chart ++ [Z.of_nat (length order)] ->
  flow_values chart1 = flow_values chart ++ [w] ->
  links_ok h root chart1 (order ++ [p ++ [i]]).
Proof.
  intros (Hs & Ht & Hall) Hw Hpos Hord Hs1 Ht1 Hf1. split_and!.
  - rewrite Hs1, Hf1, !length_app, Hs. done.
  - rewrite Ht1, Hf1, !length_app, Ht. done.
  - intros j s tg v Hj.
    apply (link_at_push chart chart1 j _ (pidx, Z.of_nat (length order), w)) in Hj
      as [Hold | [= -> -> ->]]; try done.
    + destruct (Hall j s tg v Hold) as (p' & i' & c & ? & ? & ? & ? & ?).
      exists p', i', c. split_and!; try done; by apply lookup_app_l_Some.
    + exists p, i, a. split_and!; [done | by apply lookup_app_l_Some | lia | | done].
      rewrite Nat2Z.id, lookup_app_r by lia. by rewrite Nat.sub_diag.
Qed.

Lemma entries_ok_children h root order p a w N :
  global_weight h root p = Some (a, w) ->
  h !! a = Some N ->
  Forall (fun c => is_Some (h !! c)) (Dict.values (children N)) ->
  Forall (entry_ok h root (order ++ [p]))
    (map (child_entry h N (Z.of_nat (length order)) w) (Dict.values (children N))).
Proof.
  intros Hp Ha Hall. apply Forall_forall. intros e He.
  apply list_elem_of_fmap in He as (c & -> & Hc).
  apply list_elem_of_lookup in Hc as [k Hk].
  rewrite Forall_lookup in Hall. destruct (Hall k c Hk) as [Cn HCn].
  unfold child_entry. rewrite HCn. exists p, k. split_and!.
  - by eapply walk_snoc.
  - lia.
  - rewrite Nat2Z.id, lookup_app_r by lia. by rewrite Nat.sub_diag.
Qed.

Lemma stack_shape_children h N idx w kids :
  map rroot kids = Dict.values (children N) ->
  Forall (shape h) kids ->
  stack_shape h (map (child_entry h N idx w) (Dict.values (children N))) kids.
Proof.
  intros <-. unfold stack_shape. induction kids as [|t kids IH]; intros Hall; simpl.
  - constructor.
  - apply Forall_cons in Hall as [Ht Hall]. constructor; [|by apply IH].
    by rewrite child_entry_addr.
Qed.

Lemma size_node a kids : size (RNode a kids) = S (forest_size kids).
Proof. done. Qed.

Lemma forest_size_cons t forest : forest_size (t :: forest) = size t + forest_size forest.
Proof. done. Qed.

Lemma forest_size_app f1 f2 : forest_size (f1 ++ f2) = forest_size f1 + forest_size f2.
Proof. unfold forest_size. by rewrite map_app, list_sum_app. Qed.

Lemma kids_in_store h (kids : list rtree) :
  Forall (shape h) kids -> Forall (fun c => is_Some (h !! c)) (map rroot kids).
Proof.
  induction 1 as [|t kids Ht _ IH]; simpl; constructor; [|done].
  by apply shape_root_lookup.
Qed.

Lemma sankey_loop_spec fuel : forall h root node_stack forest chart order,
  stack_shape h node_stack forest ->
  forest_size forest <= fuel ->
  labels_ok h root chart order ->
  links_ok h root chart order ->
  Forall (entry_ok h root order) node_stack ->
  exists chart' order',
    sankey_loop fuel h node_stack chart = Some chart' /\
    labels_ok h root chart' order' /\
    links_ok h root chart' order' /\
    length (node_labels chart') = length (node_labels chart) + forest_size forest /\
    length (flow_values chart') = length (flow_values chart) + forest_size forest.
Proof.
  induction fuel as [|fuel IH]; intros h root node_stack forest chart order
    Hshape Hfuel Hlabels Hlinks Hstack.
  - destruct Hshape as [|e t node_stack forest [_ _] _].
    + exists chart, order. split_and!; try done; unfold forest_size; simpl; lia.
    + rewrite forest_size_cons in Hfuel. destruct t; rewrite size_node in Hfuel. lia.
  - destruct Hshape as [|e t node_stack forest [Hroot Ht] Hrest].
    { exists chart, order. split_and!; try done; unfold forest_size; simpl; lia. }
    destruct e as [[a pidx] w]. destruct t as [a' kids]. simpl in Hroot. subst a'.
    apply shape_inv in Ht as (N & HN & Hvals & Hkids).
    apply Forall_cons in Hstack as [(p & i & Hw & Hpos & Hord) Hstack].
    rewrite forest_size_cons, size_node in Hfuel.
    cbn [sankey_loop]. rewrite HN.
    assert ((pidx =? -1)%Z = false) as -> by lia. cbn [negb].
    rewrite push_children_spec
      by (rewrite <- Hvals, <- map_rev; apply kids_in_store; by apply Forall_rev).
    rewrite map_rev, rev_involutive.
    destruct Hlabels as [Hlen Hlab]. rewrite <- Hlen.
    edestruct (IH h root
                 (map (child_entry h N (Z.of_nat (length order)) w)
                    (Dict.values (children N)) ++ node_stack)
                 (kids ++ forest)) as (chart' & order' & Hrun & Hl' & Hk' & Hn1 & Hn2);
      [ | | | | | exists chart', order'; split; [exact Hrun|] ].
    + apply Forall2_app; [by apply stack_shape_children | done].
    + rewrite forest_size_app. lia.
    + eapply (labels_ok_push h root chart _ order (p ++ [i])); [by split | done | done | done].
    + eapply (links_ok_push h root chart _ order p i a pidx w); done.
    + apply Forall_app. split.
      * apply (entries_ok_children h root order (p ++ [i]) a w N); [done | done |].
        rewrite <- Hvals. by apply kids_in_store.
      * eapply Forall_impl; [done|]. intros e. apply entry_ok_mono.
    + split_and!; [done | done | | ].
      * rewrite Hn1. cbn [node_labels]. rewrite length_app, forest_size_app,
          forest_size_cons, size_node. simpl. lia.
      * rewrite Hn2. cbn [flow_values]. rewrite length_app, forest_size_app,
          forest_size_cons, size_node. simpl. lia.
Qed.

(** C9: on a tree of nodes, [create_sankey_chart] returns a chart, after
    one iteration per node, with one label per node and one link per node
    other than the root.  Every link goes from the index of a node to the
    index of one of its children and carries the child's global weight: 100
    at the root, multiplied at each step down the path by the local
    percentage of the child, 0 when [allocations] lacks it, over 100. *)
Theorem sankey_flows_are_global_weights h root t fuel :
  shape h t ->
  rroot t = root ->
  size t <= fuel ->
  exists chart order,
    create_sankey_chart fuel h root = Some chart /\
    labels_ok h root chart order /\
    links_ok h root chart order /\
    length (node_labels chart) = size t /\
    length (flow_values chart) = size t - 1.
Proof.
  intros Ht Hroot Hfuel. destruct t as [a kids]. simpl in Hroot. subst a.
  rewrite size_node in *. destruct fuel as [|fuel]; [lia|].
  apply shape_inv in Ht as (N & HN & Hvals & Hkids).
  unfold create_sankey_chart. cbn [sankey_loop]. rewrite HN.
  assert ((-1 =? -1)%Z = true) as -> by done. cbn [negb].
  rewrite push_children_spec
    by (rewrite <- Hvals, <- map_rev; apply kids_in_store; by apply Forall_rev).
  rewrite map_rev, rev_involutive, app_nil_r.
  assert (global_weight h root [] = Some (root, 100%float)) as Hw by done.
  edestruct (sankey_loop_spec fuel h root
               (map (child_entry h N (Z.of_nat (length (@nil (list nat)))) 100)
                  (Dict.values (children N)))
               kids) as (chart' & order' & Hrun & Hl' & Hk' & Hn1 & Hn2);
    [ | | | | | exists chart', order'; split; [exact Hrun|] ].
  - by apply stack_shape_children.
  - lia.
  - instantiate (1 := [[]]). split; [done|].
    intros i p Hp. destruct i as [|i]; simpl in Hp; [|done].
    injection Hp as <-. by exists root, 100%float, N.
  - split_and!; [done | done |]. intros j s tg v Hj. by destruct j.
  - apply (entries_ok_children h root [] [] root 100%float N); [done | done |].
    rewrite <- Hvals. by apply kids_in_store.
  - split_and!; [done | done | | ].
    + rewrite Hn1. simpl. lia.
    + rewrite Hn2. simpl. lia.
Qed.

End Sankey.

(** ** The claims on the sample portfolio *)

Section Examples.
Import Sample.

Example root_name_code_points : ROOT_NAME = [25237; 36039; 32068; 21512]%N.
Proof. reflexivity. Qed.

Example strip_unicode_space :
  Str.strip (Str.lit " 　ETF fund　 ") = Str.lit "ETF fund".
Proof. reflexivity. Qed.

(** C1 fails as stated: after two asset classes were added to a fresh
    root with the default weight, the root's group is not empty and holds
    100 and 50, which sum to 150, not to 100 within a tolerance of 1. *)
Lemma ledger_sum_counterexample :
  exists N,
    two_classes !! 0 = Some N /\
    allocation_group N = two_classes_group /\
    builtin_sum (Dict.values (allocations (allocation_group N))) = 150%float /\
    ~ ledger_invariant 1 (allocation_group N).
Proof.
  eexists. split; [reflexivity|]. split; [reflexivity|]. split; [reflexivity|].
  intros [Hsum _]. assert (sums_to_100 1 two_classes_group) as H by (by apply Hsum).
  vm_compute in H. discriminate.
Qed.

(** C2 on the pinned ETF class: VTI is fixed at 70, so BND, the third
    child, gets (100 - 70) / (3 - 1) = 15 and the entries of VTI and VXUS
    stay as they were. *)
Lemma add_child_allocation_rule_witness :
  exists N',
    apply_operation pinned (AddChild 1 (Str.lit "BND") 100) !! 1 = Some N' /\
    Dict.get (Str.lit "BND") (allocations (allocation_group N')) = Some 15%float /\
    Dict.get (Str.lit "VTI") (allocations (allocation_group N')) = Some 70%float /\
    Dict.get (Str.lit "VXUS") (allocations (allocation_group N')) = Some 30%float.
Proof.
  destruct (add_child_allocation_rule pinned 1 pinned_etf (Str.lit "BND") 100
              (apply_operation pinned (AddChild 1 (Str.lit "BND") 100)) 4 []
              eq_refl eq_refl)
    as (N' & vals & HN' & Hlen & _ & Hother & _ & Hmany).
  exists N'. split; [exact HN'|].
  destruct Hmany as [Hvals [Hpos _]]; [rewrite Hlen; discriminate|].
  inversion Hvals as [|f x fs xs Hx Hrest]; subst. inversion Hrest; subst.
  injection Hx as <-.
  split; [|split].
  - rewrite Hlen in Hpos. exact (Hpos eq_refl).
  - rewrite Hother; [reflexivity | discriminate].
  - rewrite Hother; [reflexivity | discriminate].
Defined.

(** C3 fails as stated: the root accepts a child that bears the root's
    name; this child has a parent and [is_root] holds of it. *)
Lemma is_root_counterexample :
  nested !! 1 = Some namesake /\
  is_root namesake = true /\
  parent_node namesake = Some 0 /\
  ~ (is_root namesake = true <-> parent_node namesake = None /\ name namesake = ROOT_NAME).
Proof.
  split_and!; [reflexivity | reflexivity | reflexivity |].
  intros [Hif _]. destruct Hif as [Hparent _]; [reflexivity | discriminate].
Qed.

(** C4 fails as stated: a cash node cannot have children, and its list of
    available child names is empty, so nothing was appended to it. *)
Lemma available_child_names_counterexample :
  with_cash !! 1 = Some cash_leaf /\
  get_available_child_names cash_leaf = [] /\
  ~ (exists names, get_available_child_names cash_leaf = names ++ [Str.lit "其他"]).
Proof.
  split_and!; [reflexivity | reflexivity |].
  intros [names Hnames]. change (get_available_child_names cash_leaf) with (@nil str) in Hnames.
  by destruct names.
Qed.

(** C5 fails as stated: on a cash node, a name of spaces only is refused
    with the empty-or-duplicate-name message, not with "cannot add
    children". *)
Lemma add_child_on_leaf_counterexample :
  with_cash !! 1 = Some cash_leaf /\
  can_have_children cash_leaf = false /\
  add_child with_cash 1 (Str.lit "   ") 100 = Some (with_cash, Returns (None, ERR_NAME)) /\
  ERR_NAME <> ERR_NO_CHILDREN.
Proof. split_and!; [reflexivity | reflexivity | reflexivity | discriminate]. Qed.

(** C5, amended, on the cash node: "BTC" is refused with "cannot add
    children" and the store stays as it was. *)
Lemma add_child_fails_on_leaf_witness :
  exists msg,
    add_child with_cash 1 (Str.lit "BTC") 100 = Some (with_cash, Returns (None, msg)) /\
    (Str.strip (Str.lit "BTC") <> [] ->
     Str.strip (Str.lit "BTC") ∉ Dict.keys (children cash_leaf) ->
     msg = ERR_NO_CHILDREN) /\
    (Str.strip (Str.lit "BTC") = []
     \/ Str.strip (Str.lit "BTC") ∈ Dict.keys (children cash_leaf) ->
     msg = ERR_NAME).
Proof.
  exact (add_child_fails_on_leaf with_cash 1 cash_leaf (Str.lit "BTC") 100 eq_refl eq_refl).
Defined.

(** C6 on the ETF class: " VTI " trims to the key of a child; the call
    changes nothing and reports the name. *)
Lemma add_child_keeps_names_unique_witness :
  add_child portfolio 1 (Str.lit " VTI ") 100 = Some (portfolio, Returns (None, ERR_NAME)).
Proof.
  destruct (add_child_keeps_names_unique portfolio 1 etf_node (Str.lit " VTI ") 100 eq_refl)
    as (h' & r & N' & Hadd & _ & _ & _ & Hdup).
  destruct Hdup as [-> ->]; [|exact Hadd].
  right. apply list_elem_of_here.
Defined.

(** C7 on the ETF class: removing VTI takes it out of [children] and
    [allocations] and leaves VXUS at 50. *)
Lemma remove_child_bookkeeping_witness :
  exists N',
    remove_child portfolio 1 (Str.lit "VTI") = Some (<[1 := N']> portfolio, true) /\
    Dict.get (Str.lit "VTI") (children N') = None /\
    Dict.get (Str.lit "VTI") (allocations (allocation_group N')) = None /\
    Dict.get (Str.lit "VXUS") (allocations (allocation_group N')) = Some 50%float.
Proof.
  destruct (remove_child_bookkeeping portfolio 1 etf_node (Str.lit "VTI") eq_refl)
    as [Hpresent _].
  destruct Hpresent as (N' & Hrem & Hchild & _ & Hgone & Hother & _);
    [apply list_elem_of_here|].
  exists N'. split_and!; [exact Hrem | exact Hchild | exact Hgone |].
  rewrite Hother; [reflexivity | discriminate].
Defined.

(** C8 on the chain root, ETF, VTI. *)
Lemma full_path_joins_names_witness :
  full_path 3 portfolio 2
  = Some (ROOT_NAME ++ SEPARATOR ++ Str.lit "ETF" ++ SEPARATOR ++ Str.lit "VTI").
Proof.
  exact (full_path_joins_names portfolio 0 root_node
           [Str.lit "ETF"; Str.lit "VTI"] 2 3
           (backrefs_run ROOT_NAME ROOT
              [AddChild 0 (Str.lit "ETF") 100; AddChild 1 (Str.lit " VTI ") 100;
               AddChild 1 (Str.lit "VXUS") 100])
           eq_refl eq_refl eq_refl (le_n 3)).
Defined.

Lemma portfolio_shape : shape portfolio portfolio_tree.
Proof.
  eapply shape_node; [reflexivity | reflexivity |].
  apply Forall_singleton.
  eapply shape_node; [reflexivity | reflexivity |].
  apply Forall_cons. split; [|apply Forall_singleton].
  - eapply shape_node; [reflexivity | reflexivity | constructor].
  - eapply shape_node; [reflexivity | reflexivity | constructor].
Qed.

(** C9 on the sample portfolio, a tree of four nodes: the chart has four
    labels and three links. *)
Lemma sankey_flows_are_global_weights_witness :
  exists chart order,
    create_sankey_chart 4 portfolio 0 = Some chart /\
    labels_ok portfolio 0 chart order /\
    links_ok portfolio 0 chart order /\
    length (node_labels chart) = size portfolio_tree /\
    length (flow_values chart) = size portfolio_tree - 1.
Proof.
  exact (sankey_flows_are_global_weights portfolio 0 portfolio_tree 4
           portfolio_shape eq_refl (le_n 4)).
Defined.

Example sankey_flows_of_portfolio :
  option_map flow_values (create_sankey_chart 4 portfolio 0)
  = Some [100%float; 100%float; 50%float].
Proof. reflexivity. Qed.

End Examples.

(** * Further properties of the code *)

(** ** How [add_child] answers *)

Section Answers.
Context {C : Collaborators} {I : Interpreter}.
Implicit Types (h : heap) (N : Node).

Lemma add_child_succeeds h self N nm w t :
  h !! self = Some N ->
  Str.strip nm <> [] ->
  Str.strip nm ∉ Dict.keys (children N) ->
  can_have_children N = true ->
  determine_child_type N (Str.strip nm) = Some t ->
  fixed_within_allocations (allocation_group N) ->
  exists v,
    add_child h self nm w
    = Some (<[self := set_allocation_group
                        (set_children N
                           (Dict.set (Str.strip nm) (length h) (children N)))
                        (update_allocation (allocation_group N) (Str.strip nm) v)]>
              (h ++ [set_parent_node (Node_init (Str.strip nm) t) (Some self)]),
            Returns (Some (length h), [])).
Proof.
  intros Hself Hne Hni Hc Hd Hfix.
  destruct (add_child_inv h self N nm w Hself) as (h' & r & Hadd & Hres).
  destruct Hres as [Hbad|? ? Hc'|? ? ? Hd'|t' N1 vals _ _ _ Hd' -> Hv
                   |t' N1 e _ _ _ Hd' -> Hnf].
  - destruct Hbad; contradiction.
  - congruence.
  - congruence.
  - assert (t' = t) as -> by congruence. eauto.
  - contradiction.
Qed.

(** The answers of [add_child]: a returned node comes with the empty
    message, is the one new object of the store, and the store has grown
    by it; no node comes with one of the three messages, none of them
    empty, and with the store exactly as it was. *)
Theorem add_child_answers h self nm w h' node msg :
  add_child h self nm w = Some (h', Returns (node, msg)) ->
  (node = Some (length h) /\ msg = [] /\ length h' = S (length h))
  \/ (node = None /\ h' = h /\ msg <> []
      /\ (msg = ERR_NAME \/ msg = ERR_NO_CHILDREN \/ msg = ERR_UNSUPPORTED)).
Proof.
  intros Hadd.
  destruct (h !! self) as [N|] eqn:Hself.
  2:{ unfold add_child in Hadd. by rewrite Hself in Hadd. }
  destruct (add_child_inv h self N nm w Hself) as (h2 & r & Hadd' & Hres).
  rewrite Hadd in Hadd'. injection Hadd' as <- <-.
  inversion Hres; subst.
  - right. split_and!; [done | done | done | auto].
  - right. split_and!; [done | done | done | auto].
  - right. split_and!; [done | done | done | auto].
  - left. split_and!; [done | done |].
    rewrite length_insert, length_app. simpl. lia.
Qed.

(** What a successful [add_child] leaves alone: every other node of the
    store is the object it was; the parent keeps its name, kind and parent
    link; and the new node is a childless node with an empty ledger, named
    by the trimmed name, whose parent link is the parent. *)
Theorem add_child_frame h self N nm w h' c msg :
  h !! self = Some N ->
  add_child h self nm w = Some (h', Returns (Some c, msg)) ->
  (forall a, a <> self -> a < length h -> h' !! a = h !! a)
  /\ (exists N', h' !! self = Some N' /\ name N' = name N
                 /\ node_type N' = node_type N /\ parent_node N' = parent_node N
                 /\ Dict.get (Str.strip nm) (children N') = Some c)
  /\ (exists t, determine_child_type N (Str.strip nm) = Some t
                /\ h' !! c = Some (set_parent_node (Node_init (Str.strip nm) t) (Some self))).
Proof.
  intros Hself Hadd.
  destruct (add_child_inv h self N nm w Hself) as (h2 & r & Hadd' & Hres).
  rewrite Hadd in Hadd'. injection Hadd' as <- <-.
  inversion Hres as [| | |t N1 vals Hne Hni Hc Hd HN1 Hv Hh Hr|]; subst.
  split_and!.
  - intros a Hne' Hlt. by apply lookup_old_after_add.
  - eexists. split; [by eapply lookup_self_after_add|].
    split_and!; [done | done | done |]. simpl. apply get_set_eq.
  - exists t. split; [done|]. by eapply lookup_new_after_add.
Qed.

(** Whatever kind [determine_child_type] gives is one of the node's valid
    child kinds, or, below the root only, the catalog's own answer for that
    name. *)
Theorem determined_kind_is_valid_or_from_catalog N nm t :
  determine_child_type N nm = Some t ->
  t ∈ get_valid_child_types N
  \/ (is_root N = false
      /\ registry_get_name_type nm (get_valid_child_types N) = Some t).
Proof.
  unfold determine_child_type, kind_mem.
  destruct (get_valid_child_types N) as [|t0 ts] eqn:Ev; [done|].
  destruct (is_root N).
  - case_bool_decide as Hin; [|done]. intros [= <-]. by left.
  - destruct (NodeType_get_symbol_type (node_type N)) as [s|]; [|by right].
    case_bool_decide as Hin; [|by right].
    destruct (_ || _); [|by right]. intros [= <-]. by left.
Qed.

End Answers.

(** ** Which names a node accepts *)

Section Acceptance.
Context {C : Collaborators} {I : Interpreter}.
Implicit Types (h : heap) (N : Node).

Lemma kind_mem_true (t : NodeType) kinds : kind_mem t kinds = true <-> t ∈ kinds.
Proof. unfold kind_mem. apply bool_decide_eq_true. Qed.

Lemma determine_at_root N nm t :
  is_root N = true ->
  (Dict.get nm root_asset_types = Some t
   \/ ((nm ∉ Dict.keys root_asset_types) /\ t = NodeType_OTHER)) ->
  determine_child_type N nm
  = if kind_mem t (get_valid_child_types N) then Some t else None.
Proof.
  intros Hroot Ht. unfold determine_child_type. rewrite Hroot.
  assert (match Dict.get nm root_asset_types with
          | Some t0 => t0 | None => NodeType_OTHER end = t) as ->.
  { destruct Ht as [-> | [Hni ->]]; [done|]. apply get_None in Hni. by rewrite Hni. }
  destruct (get_valid_child_types N) eqn:E; [|done].
  unfold kind_mem. rewrite bool_decide_eq_false_2; [done | apply not_elem_of_nil].
Qed.

(** At the root, a trimmed name that is new and not empty is looked up in
    the table of the six asset classes, and a name the table lacks stands
    for "other".  If that kind is a valid child kind of the root, the call
    adds a child of that kind; if not, it answers "unsupported" and changes
    nothing.  The catalog is not asked. *)
Theorem add_child_at_root h self N nm w t :
  h !! self = Some N ->
  is_root N = true ->
  can_have_children N = true ->
  fixed_within_allocations (allocation_group N) ->
  Str.strip nm <> [] ->
  Str.strip nm ∉ Dict.keys (children N) ->
  (Dict.get (Str.strip nm) root_asset_types = Some t
   \/ ((Str.strip nm ∉ Dict.keys root_asset_types) /\ t = NodeType_OTHER)) ->
  (t ∈ get_valid_child_types N ->
     exists h', add_child h self nm w = Some (h', Returns (Some (length h), []))
       /\ h' !! length h
          = Some (set_parent_node (Node_init (Str.strip nm) t) (Some self)))
  /\ (t ∉ get_valid_child_types N ->
        add_child h self nm w = Some (h, Returns (None, ERR_UNSUPPORTED))).
Proof.
  intros Hself Hroot Hc Hfix Hne Hni Ht.
  pose proof (determine_at_root N (Str.strip nm) t Hroot Ht) as Hd. split.
  - intros Hin. apply kind_mem_true in Hin. rewrite Hin in Hd.
    destruct (add_child_succeeds h self N nm w t) as [v Hadd]; try done.
    eexists. split; [exact Hadd|]. by eapply lookup_new_after_add.
  - intros Hnin. assert (kind_mem t (get_valid_child_types N) = false) as Hm.
    { unfold kind_mem. by apply bool_decide_eq_false. }
    rewrite Hm in Hd.
    destruct (add_child_inv h self N nm w Hself) as (h' & r & Hadd & Hres).
    destruct Hres as [Hbad| | |t' ? ? _ _ _ Hd'|t' ? ? _ _ _ Hd']; try congruence.
    destruct Hbad; contradiction.
Qed.

(** Below the root, on a node whose kind has a symbol kind that is valid
    for it, every trimmed name that is new, not empty and either "other" or
    unknown to the catalog as a symbol of the node's kind is accepted, and
    the child gets the symbol kind. *)
Theorem add_child_free_text_symbol h self N nm w s :
  h !! self = Some N ->
  is_root N = false ->
  can_have_children N = true ->
  fixed_within_allocations (allocation_group N) ->
  NodeType_get_symbol_type (node_type N) = Some s ->
  s ∈ get_valid_child_types N ->
  Str.strip nm <> [] ->
  Str.strip nm ∉ Dict.keys (children N) ->
  (Str.strip nm = Str.lit "其他"
   \/ Str.strip nm ∉ registry_get_symbol_names (node_type N)) ->
  exists h', add_child h self nm w = Some (h', Returns (Some (length h), []))
    /\ h' !! length h
       = Some (set_parent_node (Node_init (Str.strip nm) s) (Some self)).
Proof.
  intros Hself Hroot Hc Hfix Hs Hin Hne Hni Hfree.
  assert (determine_child_type N (Str.strip nm) = Some s) as Hd.
  { unfold determine_child_type. rewrite Hroot, Hs.
    destruct (get_valid_child_types N) eqn:E; [by apply elem_of_nil in Hin|].
    apply kind_mem_true in Hin. rewrite Hin.
    assert (Str.eqb (Str.strip nm) (Str.lit "其他")
            || negb (Str.mem (Str.strip nm) (registry_get_symbol_names (node_type N)))
            = true) as ->; [|done].
    destruct Hfree as [-> | Hunknown].
    - assert (Str.eqb (Str.lit "其他") (Str.lit "其他") = true) as -> by done. done.
    - unfold Str.mem. rewrite (bool_decide_eq_false_2 _ Hunknown). apply orb_true_r. }
  destruct (add_child_succeeds h self N nm w s) as [v Hadd]; try done.
  eexists. split; [exact Hadd|]. by eapply lookup_new_after_add.
Qed.

Lemma available_child_names_ignore_children N N' :
  name N = name N' ->
  node_type N = node_type N' ->
  get_available_child_names N = get_available_child_names N'.
Proof.
  intros Hname Htype.
  unfold get_available_child_names, can_have_children, is_root, get_valid_child_types.
  by rewrite Hname, Htype.
Qed.

(** The names a node offers do not shrink or grow with its children: after
    a call of [add_child] or [remove_child], whatever it did, the node
    offers the names it offered before, a name just taken included. *)
Theorem offered_names_survive_calls h self N (o : operation) :
  h !! self = Some N ->
  exists N', apply_operation h o !! self = Some N'
             /\ get_available_child_names N' = get_available_child_names N.
Proof.
  intros Hself. destruct o as [a nm w|a nm]; simpl.
  - destruct (h !! a) as [Na|] eqn:Ha.
    2:{ unfold add_child. rewrite Ha. eauto. }
    destruct (add_child_inv h a Na nm w Ha) as (h' & r & -> & Hres).
    apply lookup_lt_Some in Hself as Hlt.
    assert (forall X new, name X = name Na -> node_type X = node_type Na ->
              exists N', <[a := X]> (h ++ [new]) !! self = Some N'
                         /\ get_available_child_names N' = get_available_child_names N)
      as Hupd.
    { intros X new Hn Ht. destruct (decide (self = a)) as [->|Hne].
      - exists X. split; [by eapply lookup_self_after_add|].
        rewrite Hself in Ha. injection Ha as <-.
        by apply available_child_names_ignore_children.
      - exists N. split; [|done]. by rewrite lookup_old_after_add. }
    destruct Hres; subst; eauto; by apply Hupd.
  - unfold remove_child. destruct (h !! a) as [Na|] eqn:Ha; [|eauto].
    destruct (decide (nm ∈ Dict.keys (children Na))) as [Hin|Hni].
    + destruct (remove_child_node_present Na nm Hin) as (N' & -> & Hn & Ht & _).
      destruct (decide (self = a)) as [->|Hne].
      * exists N'. split; [apply list_lookup_insert_eq; by eapply lookup_lt_Some|].
        rewrite Hself in Ha. injection Ha as <-.
        by apply available_child_names_ignore_children.
      * exists N. split; [|done]. by rewrite list_lookup_insert_ne.
    + rewrite remove_child_node_absent by done. rewrite list_insert_id by done. eauto.
Qed.

End Acceptance.

(** ** How calls compose *)

Section Composition.
Context {C : Collaborators} {I : Interpreter}.
Implicit Types (h : heap) (N : Node).

Lemma del_set_absent {V} (d : dict V) (k : str) (v : V) :
  k ∉ Dict.keys d -> Dict.del k (Dict.set k v d) = d.
Proof.
  intros Hni. rewrite set_absent by done. unfold Dict.del.
  rewrite filter_app. rewrite filter_cons_False, filter_nil, app_nil_r.
  2:{ simpl. assert (Str.eqb k k = true) as -> by by apply eqb_eq. simpl. tauto. }
  induction d as [|[k' v'] d IH]; [done|].
  change (Dict.keys ((k', v') :: d)) with (k' :: Dict.keys d) in Hni.
  apply not_elem_of_cons in Hni as [Hne Hni].
  rewrite filter_cons_True. { by rewrite IH. }
  simpl. assert (Str.eqb k' k = false) as -> by (apply eqb_neq; congruence). done.
Qed.

Lemma mem_set {V} (d : dict V) (k : str) (v : V) : Dict.mem k (Dict.set k v d) = true.
Proof. unfold Dict.mem. by rewrite get_set_eq. Qed.

Lemma remove_child_node_after_add N (k : str) (c : addr) (v : float) :
  k ∉ Dict.keys (children N) ->
  k ∉ Dict.keys (allocations (allocation_group N)) ->
  k ∉ fixed_items (allocation_group N) ->
  remove_child_node
    (set_allocation_group (set_children N (Dict.set k c (children N)))
       (update_allocation (allocation_group N) k v)) k
  = (N, true).
Proof.
  destruct N as [n t ch [al fx] p]. simpl. intros Hch Hal Hfx.
  unfold remove_child_node, set_allocation_group, set_children, update_allocation.
  simpl. rewrite !mem_set. simpl. rewrite !del_set_absent by done.
  unfold Str.mem. by rewrite (bool_decide_eq_false_2 _ Hfx).
Qed.

(** Adding a child and removing it again gives the parent back as it was,
    when its ledger was in step with its children: the store differs from
    the first one only by the removed node, which stays behind it with its
    parent link still set. *)
Theorem add_then_remove_restores_parent h self N nm w h' c msg :
  h !! self = Some N ->
  ledger_tracks_children N ->
  add_child h self nm w = Some (h', Returns (Some c, msg)) ->
  exists orphan,
    remove_child h' self (Str.strip nm) = Some (h ++ [orphan], true)
    /\ name orphan = Str.strip nm /\ parent_node orphan = Some self.
Proof.
  intros Hself [Hfix Hkeys] Hadd.
  destruct (add_child_inv h self N nm w Hself) as (h2 & r & Hadd' & Hres).
  rewrite Hadd in Hadd'. injection Hadd' as <- <-.
  inversion Hres as [| | |t N1 vals Hne Hni Hc Hd HN1 Hv Hh Hr|]; subst.
  exists (set_parent_node (Node_init (Str.strip nm) t) (Some self)).
  split; [|done].
  assert (Str.strip nm ∉ Dict.keys (allocations (allocation_group N))) as Hna
    by (by rewrite Hkeys).
  assert (Str.strip nm ∉ fixed_items (allocation_group N)) as Hnf
    by (intros Hin; by apply Hna, Hfix).
  unfold remove_child. erewrite lookup_self_after_add by done.
  rewrite remove_child_node_after_add by done.
  rewrite list_insert_insert_eq.
  rewrite list_insert_id; [done|]. by apply lookup_app_l_Some.
Qed.

(** Removing the same name twice: the second call finds no such child,
    returns false and leaves the store as the first call left it. *)
Theorem remove_child_twice h self nm h' :
  remove_child h self nm = Some (h', true) ->
  remove_child h' self nm = Some (h', false).
Proof.
  unfold remove_child. destruct (h !! self) as [N|] eqn:Hself; [|done].
  destruct (decide (nm ∈ Dict.keys (children N))) as [Hin|Hni].
  - destruct (remove_child_node_present N nm Hin) as (N' & -> & _ & _ & _ & Hch & _).
    intros [= <-].
    rewrite list_lookup_insert_eq by (by eapply lookup_lt_Some).
    rewrite remove_child_node_absent.
    + by rewrite list_insert_insert_eq.
    + rewrite Hch, keys_del, list_elem_of_filter. tauto.
  - rewrite remove_child_node_absent by done. intros [=].
Qed.

(** When a fixed item has no entry in [allocations] and the node has a
    child already, an [add_child] that passed its checks raises [KeyError]
    for a fixed item that [allocations] lacks, after it has put the new node
    into [children]: the parent is left with a child that has no entry in
    its ledger. *)
Theorem add_child_raises_on_stray_fixed_item h self N nm w t :
  h !! self = Some N ->
  Str.strip nm <> [] ->
  Str.strip nm ∉ Dict.keys (children N) ->
  can_have_children N = true ->
  determine_child_type N (Str.strip nm) = Some t ->
  children N <> [] ->
  ~ fixed_within_allocations (allocation_group N) ->
  exists key,
    key ∈ fixed_items (allocation_group N)
    /\ (key ∉ Dict.keys (allocations (allocation_group N)))
    /\ add_child h self nm w
       = Some (<[self := set_children N
                           (Dict.set (Str.strip nm) (length h) (children N))]>
                 (h ++ [set_parent_node (Node_init (Str.strip nm) t) (Some self)]),
               Raises (KeyError key)).
Proof.
  intros Hself Hne Hni Hc Hd Hkids Hstray.
  assert (exists key, fixed_allocations (allocations (allocation_group N))
                        (fixed_items (allocation_group N)) = Raises (KeyError key)
                      /\ key ∈ fixed_items (allocation_group N)
                      /\ (key ∉ Dict.keys (allocations (allocation_group N))))
    as (key & Hraise & Hin & Hout).
  { assert (~ fixed_items (allocation_group N)
              ⊆ Dict.keys (allocations (allocation_group N))) as Hs by done.
    clear -Hs. induction (fixed_items (allocation_group N)) as [|n items IH].
    - destruct Hs. intros x Hx. by apply elem_of_nil in Hx.
    - simpl. destruct (Dict.get n _) as [v|] eqn:E.
      + destruct IH as (key & -> & Hin & Hout).
        * intros Hsub. apply Hs. intros x [->|Hx]%elem_of_cons; [|by apply Hsub].
          destruct (decide (n ∈ Dict.keys (allocations (allocation_group N))))
            as [|Hn]; [done|]. apply get_None in Hn. congruence.
        * exists key. split_and!; [done | by right | done].
      + exists n. split_and!; [done | by left | by apply get_None]. }
  exists key. split_and!; [done | done |].
  unfold add_child. rewrite Hself.
  assert (Str.truthy (Str.strip nm) = true) as -> by (by destruct (Str.strip nm)).
  apply mem_false in Hni as Hm. rewrite Hm, Hc, Hd. cbn [negb orb].
  unfold _initialize_child_allocation.
  cbn [AllocationGroup_truthy negb allocation_group set_children children].
  rewrite set_absent by (by apply mem_false).
  assert ((length (children N ++ [(Str.strip nm, length h)]) =? 1) = false) as ->.
  { apply Nat.eqb_neq. rewrite length_app. simpl.
    destruct (children N); [done | simpl; lia]. }
  by rewrite Hraise.
Qed.

End Composition.

(** ** Stores built by calls *)

Section Built.
Context {C : Collaborators} {I : Interpreter}.
Implicit Types (h : heap) (N : Node).

Lemma links_ordered_update h self N N' :
  h !! self = Some N ->
  parent_node N' = parent_node N ->
  (forall key c, (key, c) ∈ children N' -> self < c < length h) ->
  links_ordered h -> links_ordered (<[self := N']> h).
Proof.
  intros Hself Hp Hk Hinv a Na Ha. rewrite length_insert.
  destruct (decide (a = self)) as [->|Hne].
  - rewrite list_lookup_insert_eq in Ha by (by eapply lookup_lt_Some).
    injection Ha as <-. split; [|done].
    rewrite Hp. by apply (Hinv self N Hself).
  - rewrite list_lookup_insert_ne in Ha by done. by apply Hinv.
Qed.

Lemma links_ordered_alloc h (new : Node) self :
  self < length h -> parent_node new = Some self -> children new = [] ->
  links_ordered h -> links_ordered (h ++ [new]).
Proof.
  intros Hlt Hp Hk Hinv a Na Ha. rewrite length_app. simpl.
  destruct (decide (a < length h)) as [Ha'|Ha'].
  - rewrite lookup_app_l in Ha by done. destruct (Hinv a Na Ha) as [H1 H2].
    split; [done|]. intros key c Hin. specialize (H2 key c Hin). lia.
  - rewrite lookup_app_r in Ha by lia.
    destruct (a - length h) as [|n] eqn:E; simpl in Ha; [|done].
    injection Ha as <-. split.
    + rewrite Hp. intros p [= <-]. lia.
    + rewrite Hk. intros key c Hin. by apply elem_of_nil in Hin.
Qed.

Lemma links_ordered_add h self N (X : Node) (k : str) t :
  h !! self = Some N ->
  parent_node X = parent_node N ->
  children X = Dict.set k (length h) (children N) ->
  links_ordered h ->
  links_ordered (<[self := X]> (h ++ [set_parent_node (Node_init k t) (Some self)])).
Proof.
  intros Hself Hp Hk Hinv. apply lookup_lt_Some in Hself as Hlt.
  eapply links_ordered_update; [by apply lookup_app_l_Some | done | | ].
  - intros key c Hin. rewrite Hk in Hin. rewrite length_app. simpl.
    apply elem_of_set in Hin as [Hold | [= -> ->]]; [|lia].
    destruct (Hinv self N Hself) as [_ H2]. specialize (H2 key c Hold). lia.
  - by eapply links_ordered_alloc.
Qed.

Lemma links_ordered_apply h o : links_ordered h -> links_ordered (apply_operation h o).
Proof.
  intros Hinv. destruct o as [self nm w|self nm]; simpl.
  - destruct (h !! self) as [N|] eqn:Hself.
    2:{ unfold add_child. by rewrite Hself. }
    destruct (add_child_inv h self N nm w Hself) as (h' & r & -> & Hres).
    destruct Hres; subst; try done; by eapply links_ordered_add.
  - unfold remove_child. destruct (h !! self) as [N|] eqn:Hself; [|done].
    destruct (decide (nm ∈ Dict.keys (children N))) as [Hin|Hni].
    + destruct (remove_child_node_present N nm Hin) as (N' & -> & _ & _ & Hp & Hch & _).
      eapply links_ordered_update; try done.
      intros key c Hk. rewrite Hch in Hk. apply elem_of_del in Hk as [Hk _].
      destruct (Hinv self N Hself) as [_ H2]. by apply (H2 key c).
    + rewrite remove_child_node_absent by done. by rewrite list_insert_id.
Qed.

Lemma links_ordered_run (root_name : str) (t : NodeType) ops :
  links_ordered (run (fresh root_name t) ops).
Proof.
  apply run_invariant; [intros; by apply links_ordered_apply|].
  intros a N Ha. destruct a as [|a]; simpl in Ha; [|done].
  injection Ha as <-. split; [done|]. intros key c Hin. by apply elem_of_nil in Hin.
Qed.

Lemma full_path_more_fuel h fuel : forall a p fuel',
  full_path fuel h a = Some p -> fuel <= fuel' -> full_path fuel' h a = Some p.
Proof.
  induction fuel as [|fuel IH]; intros a p fuel' Hp Hle; [done|].
  destruct fuel' as [|fuel']; [lia|]. cbn [full_path] in *.
  destruct (h !! a) as [N|]; [|done].
  destruct (parent_node N) as [q|]; [|done].
  destruct (full_path fuel h q) as [qq|] eqn:E; [|done].
  rewrite (IH q qq fuel' E) by lia. done.
Qed.

Lemma full_path_ordered h : links_ordered h ->
  forall a, a < length h -> exists p, full_path (S a) h a = Some p.
Proof.
  intros Hinv a. induction a as [a IH] using lt_wf_ind. intros Hlt.
  destruct (lookup_lt_is_Some_2 h a Hlt) as [N HN].
  destruct (parent_node N) as [p|] eqn:Hp.
  - destruct (Hinv a N HN) as [Hpar _]. specialize (Hpar p Hp).
    destruct (IH p Hpar) as [pp Hpp]; [lia|].
    rewrite (full_path_child a h a N p HN Hp).
    rewrite (full_path_more_fuel h (S p) p pp a Hpp) by lia. eauto.
  - exists (name N). by apply full_path_root.
Qed.

(** In a store built by calls from one fresh node, [full_path] returns for
    every node, removed ones included; the recursion is never deeper than
    the node's address plus one. *)
Theorem full_path_defined_after_operations (root_name : str) (t : NodeType) ops a :
  a < length (run (fresh root_name t) ops) ->
  exists p, full_path (S a) (run (fresh root_name t) ops) a = Some p.
Proof. apply full_path_ordered, links_ordered_run. Qed.

Lemma identity_kept h o a N :
  h !! a = Some N ->
  exists N', apply_operation h o !! a = Some N'
             /\ name N' = name N /\ parent_node N' = parent_node N.
Proof.
  intros Ha. apply lookup_lt_Some in Ha as Hlt.
  destruct o as [self nm w|self nm]; simpl.
  - destruct (h !! self) as [Ns|] eqn:Hself.
    2:{ unfold add_child. rewrite Hself. eauto. }
    destruct (add_child_inv h self Ns nm w Hself) as (h' & r & -> & Hres).
    assert (forall X new, name X = name Ns -> parent_node X = parent_node Ns ->
              exists N', <[self := X]> (h ++ [new]) !! a = Some N'
                         /\ name N' = name N /\ parent_node N' = parent_node N)
      as Hupd.
    { intros X new Hn Hp. destruct (decide (a = self)) as [->|Hne].
      - exists X. split; [by eapply lookup_self_after_add|].
        rewrite Hself in Ha. by injection Ha as <-.
      - exists N. split; [|done]. by rewrite lookup_old_after_add. }
    destruct Hres; subst; eauto; by apply Hupd.
  - unfold remove_child. destruct (h !! self) as [Ns|] eqn:Hself; [|eauto].
    destruct (decide (nm ∈ Dict.keys (children Ns))) as [Hin|Hni].
    + destruct (remove_child_node_present Ns nm Hin) as (N' & -> & Hn & _ & Hp & _).
      destruct (decide (a = self)) as [->|Hne].
      * exists N'. split; [apply list_lookup_insert_eq; by eapply lookup_lt_Some|].
        rewrite Hself in Ha. by injection Ha as <-.
      * exists N. split; [|done]. by rewrite list_lookup_insert_ne.
    + rewrite remove_child_node_absent by done. rewrite list_insert_id by done. eauto.
Qed.

(** No call changes the path of a node that exists: after [add_child] or
    [remove_child], at any node and whatever it did, [full_path] gives for
    every node the string it gave before.  The node that [remove_child]
    took out of its parent keeps the path it had, too. *)
Theorem paths_survive_calls h o fuel a p :
  full_path fuel h a = Some p ->
  full_path fuel (apply_operation h o) a = Some p.
Proof.
  revert a p. induction fuel as [|fuel IH]; intros a p; [done|].
  cbn [full_path]. destruct (h !! a) as [N|] eqn:Ha; [|done].
  destruct (identity_kept h o a N Ha) as (N' & -> & -> & ->).
  destruct (parent_node N) as [q|]; [|done].
  destruct (full_path fuel h q) as [qq|] eqn:E; [|done].
  by rewrite (IH q qq E).
Qed.

(** The path of a node that [add_child] returns is the path of the parent,
    the separator and the trimmed name. *)
Theorem new_child_path h self nm w h' c msg fuel p :
  add_child h self nm w = Some (h', Returns (Some c, msg)) ->
  full_path fuel h self = Some p ->
  full_path (S fuel) h' c = Some (p ++ SEPARATOR ++ Str.strip nm).
Proof.
  intros Hadd Hp.
  pose proof (paths_survive_calls h (AddChild self nm w) fuel self p Hp) as Hp'.
  simpl in Hp'. rewrite Hadd in Hp'.
  destruct (h !! self) as [N|] eqn:Hself.
  2:{ unfold add_child in Hadd. by rewrite Hself in Hadd. }
  destruct (add_child_inv h self N nm w Hself) as (h2 & r & Hadd' & Hres).
  rewrite Hadd in Hadd'. injection Hadd' as <- <-.
  inversion Hres as [| | |t N1 vals Hne Hni Hc Hd HN1 Hv Hh Hr|]; subst.
  erewrite full_path_child;
    [ | by eapply lookup_new_after_add | reflexivity ].
  by rewrite Hp'.
Qed.

Lemma trees_of_children h (P : rtree -> Prop) (l : list addr) :
  (forall c, c ∈ l -> exists t, P t /\ rroot t = c) ->
  exists kids, map rroot kids = l /\ Forall P kids.
Proof.
  induction l as [|c l IH]; intros Hall.
  - by exists [].
  - destruct (Hall c) as (t & Ht & Hr); [left|].
    destruct IH as (kids & Hk & Hf); [intros c' Hc'; apply Hall; by right|].
    exists (t :: kids). split; [simpl; congruence | by constructor].
Qed.

Lemma shape_ordered h : links_ordered h ->
  forall n a, length h - a <= n -> a < length h -> exists t, shape h t /\ rroot t = a.
Proof.
  intros Hinv n. induction n as [|n IH]; intros a Hn Hlt; [lia|].
  destruct (lookup_lt_is_Some_2 h a Hlt) as [N HN].
  destruct (trees_of_children h (shape h) (Dict.values (children N)))
    as (kids & Hk & Hf).
  - intros c Hc. apply list_elem_of_fmap in Hc as ([key c'] & -> & Hin).
    destruct (Hinv a N HN) as [_ Hch]. specialize (Hch key c' Hin).
    apply IH; simpl; lia.
  - exists (RNode a kids). split; [|done]. by eapply shape_node.
Qed.

Lemma create_sankey_chart_on_tree h root t fuel :
  shape h t -> rroot t = root -> size t <= fuel ->
  exists chart order,
    create_sankey_chart fuel h root = Some chart /\
    labels_ok h root chart order /\ links_ok h root chart order.
Proof.
  intros Ht Hroot Hfuel. destruct t as [a kids]. simpl in Hroot. subst a.
  rewrite size_node in *. destruct fuel as [|fuel]; [lia|].
  apply shape_inv in Ht as (N & HN & Hvals & Hkids).
  unfold create_sankey_chart. cbn [sankey_loop]. rewrite HN.
  assert ((-1 =? -1)%Z = true) as -> by done. cbn [negb].
  rewrite push_children_spec
    by (rewrite <- Hvals, <- map_rev; apply kids_in_store; by apply Forall_rev).
  rewrite map_rev, rev_involutive, app_nil_r.
  edestruct (sankey_loop_spec fuel h root
               (map (child_entry h N (Z.of_nat (length (@nil (list nat)))) 100)
                  (Dict.values (children N)))
               kids) as (chart' & order' & Hrun & Hl' & Hk' & _);
    [ | | | | | exists chart', order'; split; [exact Hrun | by split] ].
  - by apply stack_shape_children.
  - lia.
  - instantiate (1 := [[]]). split; [done|].
    intros i p Hp. destruct i as [|i]; simpl in Hp; [|done].
    injection Hp as <-. by exists root, 100%float, N.
  - split_and!; [done | done |]. intros j s tg v Hj. by destruct j.
  - apply (entries_ok_children h root [] [] root 100%float N); [done | done |].
    rewrite <- Hvals. by apply kids_in_store.
Qed.

(** In a store built by calls from one fresh node, [create_sankey_chart]
    returns for every node, given enough iterations, and the links of the
    chart carry the global weights below that node. *)
Theorem sankey_defined_after_operations (root_name : str) (t : NodeType) ops node :
  node < length (run (fresh root_name t) ops) ->
  exists fuel chart order,
    create_sankey_chart fuel (run (fresh root_name t) ops) node = Some chart /\
    labels_ok (run (fresh root_name t) ops) node chart order /\
    links_ok (run (fresh root_name t) ops) node chart order.
Proof.
  intros Hlt.
  destruct (shape_ordered _ (links_ordered_run root_name t ops) _ node (le_n _) Hlt)
    as (tr & Hshape & Hroot).
  exists (size tr).
  by apply (create_sankey_chart_on_tree _ node tr (size tr)).
Qed.

End Built.

(** ** The indices of a chart *)

Section ChartFacts.
Context {C : Collaborators} {I : Interpreter}.
Implicit Types (h : heap) (N : Node) (chart : SankeyChart).

Lemma push_children_inv h N idx w todo : forall st st',
  push_children h N idx w todo st = Some st' ->
  st' = rev (map (child_entry h N idx w) todo) ++ st.
Proof.
  induction todo as [|c todo IH]; intros st st'; cbn [push_children map rev].
  - by intros [= <-].
  - destruct (h !! c) as [Cn|] eqn:Hc; [|done]. intros Hpush.
    apply IH in Hpush as ->. rewrite <- app_assoc.
    assert (child_entry h N idx w c
            = (c, idx, (w * get_allocation (allocation_group N) (name Cn) 0 / 100)%float))
      as -> by (unfold child_entry; by rewrite Hc).
    done.
Qed.

Lemma elem_of_rev_list {A} (x : A) (l : list A) : x ∈ rev l -> x ∈ l.
Proof. rewrite !list_elem_of_In. apply in_rev. Qed.

Lemma child_entry_index h N idx w c : snd (fst (child_entry h N idx w c)) = idx.
Proof. unfold child_entry. by destruct (h !! c). Qed.

Lemma indices_ok_loop h fuel : forall node_stack chart chart',
  sankey_loop fuel h node_stack chart = Some chart' ->
  indices_ok chart ->
  Forall (fun e : entry =>
            (-1 <= snd (fst e) < Z.of_nat (length (node_labels chart)))%Z) node_stack ->
  indices_ok chart'.
Proof.
  induction fuel as [|fuel IH]; intros node_stack chart chart' Hrun Hok Hstack.
  - destruct node_stack as [|[[a pidx] w] rest]; simpl in Hrun; [|done].
    by injection Hrun as <-.
  - destruct node_stack as [|[[a pidx] w] rest]; cbn [sankey_loop] in Hrun.
    { by injection Hrun as <-. }
    destruct (h !! a) as [N|] eqn:Ha; [|done].
    destruct (push_children _ _ _ _ _ _) as [stack'|] eqn:Hpush; [|done].
    apply push_children_inv in Hpush as ->.
    apply Forall_cons in Hstack as [Hp Hrest]. simpl in Hp.
    destruct Hok as (Hcol & Hlinks & Hflow).
    eapply IH; [exact Hrun | | ].
    + unfold indices_ok. cbn [node_colors node_labels source_indices
                               target_indices flow_values].
      rewrite !length_app. simpl. split_and!.
      * lia.
      * assert (Forall2
                  (fun s tg => (0 <= s < tg)%Z
                     /\ (tg < Z.of_nat (length (node_labels chart) + 1))%Z)
                  (source_indices chart) (target_indices chart)) as Hold.
        { eapply Forall2_impl; [exact Hlinks|]. simpl. intros s tg [? ?]. lia. }
        destruct (pidx =? -1)%Z eqn:E; simpl; [done|].
        apply Forall2_app; [done|]. constructor; [|constructor]. lia.
      * destruct (pidx =? -1)%Z; simpl; rewrite ?length_app; simpl; lia.
    + cbn [node_labels]. rewrite length_app. simpl. apply Forall_app. split.
      * apply Forall_forall. intros e He. apply elem_of_rev_list, list_elem_of_fmap in He
          as (c & -> & _). rewrite child_entry_index. lia.
      * eapply Forall_impl; [exact Hrest|]. simpl. intros e ?. lia.
Qed.

(** A chart that [create_sankey_chart] returns refers to its own nodes
    only: it has a colour for every label, a value for every link, and
    every link goes from an index that is not negative to a higher index
    below the number of labels, so no link starts where it ends or points
    to a node that is not drawn. *)
Theorem sankey_indices_in_range h node fuel chart :
  create_sankey_chart fuel h node = Some chart -> indices_ok chart.
Proof.
  unfold create_sankey_chart. intros Hrun.
  eapply indices_ok_loop; [exact Hrun | | ].
  - split_and!; [done | constructor | done].
  - constructor; [simpl; lia | constructor].
Qed.

(** A node without children gives a chart of one label, one colour and no
    link. *)
Theorem sankey_of_childless_node h node N fuel :
  h !! node = Some N ->
  children N = [] ->
  create_sankey_chart (S fuel) h node
  = Some {| source_indices := []; target_indices := []; flow_values := [];
            node_labels := [name N]; node_colors := [get_color (node_type N)] |}.
Proof.
  intros HN Hleaf. unfold create_sankey_chart. cbn [sankey_loop].
  rewrite HN, Hleaf. simpl. by destruct fuel.
Qed.

End ChartFacts.
